(** * agentic-chess: the match driver of [src/App.tsx]

    A shallow embedding of the [App] component: its thirteen [useState]
    cells, the chess.js instance it owns, the trivia interval of its
    [useEffect], the in-flight [fetch] of [startGame] and the [setTimeout]
    chain of [playMoves], run by an event loop that executes one task
    (a click, a change, a settled promise, a timer) at a time.

    What the model takes from the platform:
    - a task runs to its end before the next one starts, and the new state
      is rendered, with the effect's clean-up and body run, before the next
      task; a value given to a state setter is what the next task reads;
    - timeouts set with the same delay fire in the order they were set;
    - a disabled button receives no click, and a button that is not rendered
      cannot be clicked;
    - the two awaits of [startGame] ([fetch], [response.json()]) settle as
      one event, nothing of the component being run between them;
    - the answer's [move_history] is a list of strings.

    chess.js is not part of the repository: it is a parameter, the class
    [Chess], and every property is proved for every instance.  [Board] is a
    small instance on which the component can be run. *)

From Stdlib Require Import String Ascii List Bool Arith ZArith Lia DecimalString
  DecimalNat.
Import ListNotations.
Open Scope string_scope.
Open Scope nat_scope.
Open Scope list_scope.

Set Implicit Arguments.

(** ** JavaScript values used by the component *)

Module JS.

(** [String.prototype.slice(b, e)] for the non-negative constant bounds the
    component uses ([0,2] and [2,4]); shorter strings are cut short, never
    an error.  Strings are byte strings here, which agrees with UTF-16
    code units on the ASCII move codes. *)
Definition slice (s : string) (b e : nat) : string := substring b (e - b) s.

(** A JavaScript number as far as the component produces one: the
    literals [1] and [5] and the results of [parseInt], which are integers
    or [NaN].  Rounding of integers beyond 2^53 to the nearest double is
    not modelled; it is monotone and fixes 1, so comparisons with 1 are
    unaffected. *)
Inductive number : Type :=
| NaN
| Num (z : Z).

Definition Math_max (a b : number) : number :=
  match a, b with
  | Num x, Num y => Num (Z.max x y)
  | _, _ => NaN
  end.

(** [a < b] and [a >= b] of JavaScript: both false when an operand is NaN. *)
Definition lt (a b : number) : bool :=
  match a, b with
  | Num x, Num y => Z.ltb x y
  | _, _ => false
  end.

Definition ge (a b : number) : bool :=
  match a, b with
  | Num x, Num y => Z.leb y x
  | _, _ => false
  end.

(** White space skipped by [parseInt] (the ASCII part of StrWhiteSpaceChar). *)
Definition is_white_space (c : ascii) : bool :=
  let n := nat_of_ascii c in
  ((9 <=? n) && (n <=? 13)) || (n =? 32).

Fixpoint trim_start (s : string) : string :=
  match s with
  | String c s' => if is_white_space c then trim_start s' else s
  | EmptyString => s
  end.

Definition digit_value (radix : Z) (c : ascii) : option Z :=
  (let n := Z.of_nat (nat_of_ascii c) in
   let v :=
     if (48 <=? n) && (n <=? 57) then Some (n - 48)
     else if (97 <=? n) && (n <=? 122) then Some (n - 87)
     else if (65 <=? n) && (n <=? 90) then Some (n - 55)
     else None in
   match v with
   | Some d => if d <? radix then Some d else None
   | None => None
   end)%Z.

(** The longest prefix of radix digits, as a number; [None] when empty. *)
Fixpoint parse_digits (radix : Z) (acc : option Z) (s : string) : option Z :=
  match s with
  | String c s' =>
      match digit_value radix c with
      | Some d =>
          parse_digits radix
            (Some (match acc with Some a => a * radix + d | None => d end)%Z) s'
      | None => acc
      end
  | EmptyString => acc
  end.

(** [parseInt(s)] with no radix argument: leading white space, a sign, an
    optional [0x]/[0X] prefix selecting radix 16, then digits; anything
    after the digits is ignored; no digit at all gives NaN. *)
Definition parseInt (s : string) : number :=
  let s1 := trim_start s in
  let '(negative, s2) :=
    match s1 with
    | String "-" r => (true, r)
    | String "+" r => (false, r)
    | _ => (false, s1)
    end in
  let '(radix, s3) :=
    match s2 with
    | String "0" (String "x" r) => (16%Z, r)
    | String "0" (String "X" r) => (16%Z, r)
    | _ => (10%Z, s2)
    end in
  match parse_digits radix None s3 with
  | Some z => Num (if negative then - z else z)
  | None => NaN
  end.

(** Decimal rendering of a non-negative integer, as JSX renders [{index + 1}]. *)
Definition string_of_nat (n : nat) : string :=
  NilEmpty.string_of_uint (Nat.to_uint n).

End JS.

(** ** The chess.js collaborator

    [chess.js] is a dependency, not part of the repository: the component
    uses a [Chess] object through its constructor and three methods.  The
    engine state is whatever the object holds; [Chess_move] is [None] when
    the call raises (chess.js raises on a move it does not accept), in which
    case the object is left as it was. *)

Record MoveObject : Type := { from : string; to : string; promotion : string }.

Class Chess (E : Type) : Type := {
  new_Chess : E;                              (* new Chess() *)
  Chess_reset : E -> E;                       (* game.reset() *)
  Chess_move : E -> MoveObject -> option E;   (* game.move({from, to, promotion}) *)
  Chess_fen : E -> string                     (* game.fen() *)
}.

(** ** Module-level constants *)

Definition providers : list string := ["OpenAI"; "Claude"; "Gemini"; "Mixtral"].

Definition chessTrivia : list string := [
  "The longest official chess game in history lasted 269 moves (Nikolić vs Arsović, 1989)";
  "The number of possible unique chess games is greater than the number of atoms in the universe";
  "The first chess computer program was developed by Alan Turing in 1951";
  "The shortest possible chess game ending in checkmate takes just two moves";
  "The longest chess game theoretically possible is 5,949 moves";
  "The word 'Checkmate' comes from the Persian phrase 'Shah Mat' meaning 'the king is dead'";
  "Chess was invented in India around the 6th century AD";
  "The first chess tournament was held in London in 1851";
  "Magnus Carlsen became a chess grandmaster at the age of 13";
  "The queen piece was originally the vizier and was the weakest piece"
].

(** ** State of the running component *)

(** The five configuration cells ([whiteModel] ... [maxTurns]). *)
Record Config : Type := {
  whiteModel : string;
  blackModel : string;
  whiteKey : string;
  blackKey : string;
  maxTurns : JS.number
}.

(** The object passed to [JSON.stringify] as the request body. *)
Record Request : Type := {
  white_model : string;
  black_model : string;
  white_api_key : string;
  black_api_key : string;
  max_turns : JS.number
}.

(** The variables captured by one [playMoves] closure: [const moves] and the
    mutable [let i].  Every [startGame] call whose fetch resolves allocates
    one; the timer callbacks of that call share it. *)
Record Closure : Type := { moves : list string; i : nat }.

(** Calls the component makes, recorded in the order they happen. *)
Inductive effect : Type :=
| Called_reset                                      (* game.reset() *)
| Called_move (m : MoveObject) (accepted : bool)    (* game.move(m) *)
| Called_setPosition (fen : string)
| Called_setGameFinished (b : bool)
| Called_fetch (body : Request)
| Called_setTimeout (closure : nat)
| Called_console_error
| Uncaught (err : string).                          (* a task ended by an exception *)

Section App.

Context {E : Type} {engine : Chess E}.

Record World : Type := {
  game : E;                       (* the object held by [const [game]] *)
  config : Config;
  position : string;
  isLoading : bool;
  thinking : string;
  gameFinished : bool;
  currentTrivia : nat;
  gameStarted : bool;
  movesHistory : list string;
  interval : bool;                (* is the effect's interval registered *)
  inflight : list Request;        (* fetches awaiting an answer *)
  closures : list Closure;        (* closure environments, by allocation order *)
  timers : list nat;              (* pending timeouts, oldest first, by closure *)
  trace : list effect
}.

Definition set_game g w :=
  Build_World g (config w) (position w) (isLoading w) (thinking w) (gameFinished w)
    (currentTrivia w) (gameStarted w) (movesHistory w) (interval w) (inflight w)
    (closures w) (timers w) (trace w).
Definition set_config c w :=
  Build_World (game w) c (position w) (isLoading w) (thinking w) (gameFinished w)
    (currentTrivia w) (gameStarted w) (movesHistory w) (interval w) (inflight w)
    (closures w) (timers w) (trace w).
Definition set_position p w :=
  Build_World (game w) (config w) p (isLoading w) (thinking w) (gameFinished w)
    (currentTrivia w) (gameStarted w) (movesHistory w) (interval w) (inflight w)
    (closures w) (timers w) (trace w).
Definition set_isLoading b w :=
  Build_World (game w) (config w) (position w) b (thinking w) (gameFinished w)
    (currentTrivia w) (gameStarted w) (movesHistory w) (interval w) (inflight w)
    (closures w) (timers w) (trace w).
Definition set_thinking s w :=
  Build_World (game w) (config w) (position w) (isLoading w) s (gameFinished w)
    (currentTrivia w) (gameStarted w) (movesHistory w) (interval w) (inflight w)
    (closures w) (timers w) (trace w).
Definition set_gameFinished b w :=
  Build_World (game w) (config w) (position w) (isLoading w) (thinking w) b
    (currentTrivia w) (gameStarted w) (movesHistory w) (interval w) (inflight w)
    (closures w) (timers w) (trace w).
Definition set_currentTrivia n w :=
  Build_World (game w) (config w) (position w) (isLoading w) (thinking w) (gameFinished w)
    n (gameStarted w) (movesHistory w) (interval w) (inflight w)
    (closures w) (timers w) (trace w).
Definition set_gameStarted b w :=
  Build_World (game w) (config w) (position w) (isLoading w) (thinking w) (gameFinished w)
    (currentTrivia w) b (movesHistory w) (interval w) (inflight w)
    (closures w) (timers w) (trace w).
Definition set_movesHistory l w :=
  Build_World (game w) (config w) (position w) (isLoading w) (thinking w) (gameFinished w)
    (currentTrivia w) (gameStarted w) l (interval w) (inflight w)
    (closures w) (timers w) (trace w).
Definition set_interval b w :=
  Build_World (game w) (config w) (position w) (isLoading w) (thinking w) (gameFinished w)
    (currentTrivia w) (gameStarted w) (movesHistory w) b (inflight w)
    (closures w) (timers w) (trace w).
Definition set_inflight l w :=
  Build_World (game w) (config w) (position w) (isLoading w) (thinking w) (gameFinished w)
    (currentTrivia w) (gameStarted w) (movesHistory w) (interval w) l
    (closures w) (timers w) (trace w).
Definition set_closures l w :=
  Build_World (game w) (config w) (position w) (isLoading w) (thinking w) (gameFinished w)
    (currentTrivia w) (gameStarted w) (movesHistory w) (interval w) (inflight w)
    l (timers w) (trace w).
Definition set_timers l w :=
  Build_World (game w) (config w) (position w) (isLoading w) (thinking w) (gameFinished w)
    (currentTrivia w) (gameStarted w) (movesHistory w) (interval w) (inflight w)
    (closures w) l (trace w).
Definition set_trace l w :=
  Build_World (game w) (config w) (position w) (isLoading w) (thinking w) (gameFinished w)
    (currentTrivia w) (gameStarted w) (movesHistory w) (interval w) (inflight w)
    (closures w) (timers w) l.

(** ** Tasks: state and exceptions

    A computation runs on the world and either completes or throws; what it
    did to the world before throwing stays done, as in JavaScript. *)

Inductive completion (A : Type) : Type :=
| Normal (a : A)
| Throw (err : string).
Arguments Throw {A} err.

Definition M (A : Type) : Type := World -> completion A * World.

Definition ret {A} (a : A) : M A := fun w => (Normal a, w).

Definition bind {A B} (c : M A) (k : A -> M B) : M B :=
  fun w =>
    match c w with
    | (Normal a, w') => k a w'
    | (Throw err, w') => (Throw err, w')
    end.

Definition throw {A} (err : string) : M A := fun w => (Throw err, w).

(** [try { body } catch (error) { handler }] *)
Definition try_catch {A} (body : M A) (handler : string -> M A) : M A :=
  fun w =>
    match body w with
    | (Normal a, w') => (Normal a, w')
    | (Throw err, w') => handler err w'
    end.

Definition modify (f : World -> World) : M unit := fun w => (Normal tt, f w).

Definition record (e : effect) : M unit :=
  modify (fun w => set_trace (trace w ++ [e]) w).

End App.

Arguments World E : clear implicits.
Arguments M E A : clear implicits.
Arguments Throw {A} err.

Declare Scope task_scope.
Delimit Scope task_scope with task.
Notation "x <- c ;; k" := (bind c (fun x => k))
  (at level 61, c at next level, right associativity) : task_scope.
Notation "c ;; k" := (bind c (fun _ => k))
  (at level 61, right associativity) : task_scope.

Section Component.

Context {E : Type} {engine : Chess E}.
Local Open Scope task_scope.

Local Abbreviation Task := (M E).

(** *** The chess.js instance *)

Definition game_reset : Task unit :=
  modify (fun w => set_game (Chess_reset (game w)) w) ;; record Called_reset.

Definition game_fen : Task string := fun w => (Normal (Chess_fen (game w)), w).

Definition game_move (m : MoveObject) : Task unit :=
  fun w =>
    match Chess_move (game w) m with
    | Some g => (record (Called_move m true)) (set_game g w)
    | None =>
        match record (Called_move m false) w with
        | (_, w') => (Throw "Invalid move", w')
        end
    end.

(** *** The state setters.  A setter's value is what the next task reads. *)

Definition setPosition (p : string) : Task unit :=
  modify (set_position p) ;; record (Called_setPosition p).
Definition setIsLoading (b : bool) : Task unit := modify (set_isLoading b).
Definition setThinking (s : string) : Task unit := modify (set_thinking s).
Definition setGameFinished (b : bool) : Task unit :=
  modify (set_gameFinished b) ;; record (Called_setGameFinished b).
Definition setGameStarted (b : bool) : Task unit := modify (set_gameStarted b).
Definition setMovesHistory (l : list string) : Task unit := modify (set_movesHistory l).
Definition setCurrentTrivia (f : nat -> nat) : Task unit :=
  modify (fun w => set_currentTrivia (f (currentTrivia w)) w).

Definition setWhiteModel (v : string) : Task unit :=
  modify (fun w => let c := config w in
    set_config (Build_Config v (blackModel c) (whiteKey c) (blackKey c) (maxTurns c)) w).
Definition setBlackModel (v : string) : Task unit :=
  modify (fun w => let c := config w in
    set_config (Build_Config (whiteModel c) v (whiteKey c) (blackKey c) (maxTurns c)) w).
Definition setWhiteKey (v : string) : Task unit :=
  modify (fun w => let c := config w in
    set_config (Build_Config (whiteModel c) (blackModel c) v (blackKey c) (maxTurns c)) w).
Definition setBlackKey (v : string) : Task unit :=
  modify (fun w => let c := config w in
    set_config (Build_Config (whiteModel c) (blackModel c) (whiteKey c) v (maxTurns c)) w).
Definition setMaxTurns (n : JS.number) : Task unit :=
  modify (fun w => let c := config w in
    set_config (Build_Config (whiteModel c) (blackModel c) (whiteKey c) (blackKey c) n) w).

(** *** Browser services *)

(** [fetch(url, {method: "POST", body})]: the request is in flight until the
    event loop settles it. *)
Definition fetch (body : Request) : Task unit :=
  modify (fun w => set_inflight (inflight w ++ [body]) w) ;; record (Called_fetch body).

(** [setTimeout(callback, 1000)] where the callback belongs to closure [c];
    equal delays fire in the order they were set. *)
Definition setTimeout (c : nat) : Task unit :=
  modify (fun w => set_timers (timers w ++ [c]) w) ;; record (Called_setTimeout c).

Definition console_error : Task unit := record Called_console_error.

(** *** Closure variables *)

Definition new_closure (ms : list string) : Task nat :=
  fun w => (Normal (length (closures w)),
            set_closures (closures w ++ [Build_Closure ms 0]) w).

Definition closure (c : nat) : Task Closure :=
  fun w =>
    match nth_error (closures w) c with
    | Some env => (Normal env, w)
    | None => (Throw "ReferenceError", w)
    end.

Fixpoint update_nth {A} (n : nat) (f : A -> A) (l : list A) : list A :=
  match n, l with
  | O, x :: l' => f x :: l'
  | S n', x :: l' => x :: update_nth n' f l'
  | _, [] => []
  end.

(** [i++] *)
Definition incr_i (c : nat) : Task unit :=
  modify (fun w =>
    set_closures
      (update_nth c (fun env => Build_Closure (moves env) (i env + 1)) (closures w)) w).

(** [moves[i]] followed by a method call on it: an index past the end gives
    [undefined], whose [slice] raises. *)
Definition element (ms : list string) (n : nat) : Task string :=
  match nth_error ms n with
  | Some move => ret move
  | None => throw "TypeError"
  end.

(** ** The component's functions *)

(** [resetGame], lines 48-55. *)
Definition resetGame : Task unit :=
  game_reset ;;
  p <- game_fen ;; setPosition p ;;
  setGameFinished false ;;
  setThinking "" ;;
  setGameStarted false ;;
  setMovesHistory [].

(** [formatMove], lines 57-61. *)
Definition formatMove (move : string) : string :=
  let from := JS.slice move 0 2 in
  let to := JS.slice move 2 4 in
  (from ++ "-" ++ to)%string.

(** [playMoves], lines 95-112; its timer callback is [playMoves_timeout]. *)
Definition playMoves (c : nat) : Task unit :=
  env <- closure c ;;
  if i env <? length (moves env) then
    let currentTurn := if (i env mod 2 =? 0)%nat then "White" else "Black" in
    setThinking (currentTurn ++ " is thinking...")%string ;;
    setTimeout c
  else
    setThinking "" ;;
    setIsLoading false ;;
    setGameFinished true.

(** The callback given to [setTimeout], lines 100-106. *)
Definition playMoves_timeout (c : nat) : Task unit :=
  env <- closure c ;;
  move <- element (moves env) (i env) ;;
  game_move {| from := JS.slice move 0 2; to := JS.slice move 2 4; promotion := "q" |} ;;
  p <- game_fen ;; setPosition p ;;
  incr_i c ;;
  playMoves c.

(** [startGame] up to its first [await], lines 63-86. *)
Definition startGame : Task unit :=
  setIsLoading true ;;
  setThinking "Agents are getting ready..." ;;
  setGameFinished false ;;
  setGameStarted false ;;
  setMovesHistory [] ;;
  game_reset ;;
  p <- game_fen ;; setPosition p ;;
  w <- (fun w => (Normal w, w)) ;;
  fetch {| white_model := whiteModel (config w);
           black_model := blackModel (config w);
           white_api_key := whiteKey (config w);
           black_api_key := blackKey (config w);
           max_turns := maxTurns (config w) |}.

(** How the awaited [fetch] and [response.json()] settle: with the
    [move_history] of the answer, or by rejecting.  The answer is taken to
    hold a list of strings, as the component's [useState<string[]>]
    declares. *)
Inductive settled : Type :=
| Resolved (move_history : list string)
| Rejected.

Definition await (s : settled) : Task (list string) :=
  match s with
  | Resolved move_history => ret move_history
  | Rejected => throw "fetch failed"
  end.

(** [startGame] from the [await] on: the rest of the [try] block and the
    [catch], lines 72-119. *)
Definition startGame_resume (s : settled) : Task unit :=
  try_catch
    (ms <- await s ;;
     setMovesHistory ms ;;
     c <- new_closure ms ;;
     setGameStarted true ;;
     playMoves c)
    (fun error =>
       console_error ;;
       setThinking "Failed to load moves." ;;
       setIsLoading false).

(** The interval callback of the effect, line 40. *)
Definition trivia_tick : Task unit :=
  setCurrentTrivia (fun prev => (prev + 1) mod length chessTrivia).

(** The [onChange] of the max-turns input, line 183. *)
Definition onChange_maxTurns (value : string) : Task unit :=
  setMaxTurns (JS.Math_max (JS.Num 1) (JS.parseInt value)).

(** The effect of lines 36-46 with dependencies [isLoading, gameStarted]:
    when one of them changed in the task just run, the clean-up clears the
    interval and the body registers one iff [isLoading && !gameStarted]. *)
Definition useEffect (before after : World E) : World E :=
  if Bool.eqb (isLoading before) (isLoading after)
     && Bool.eqb (gameStarted before) (gameStarted after)
  then after
  else set_interval (isLoading after && negb (gameStarted after)) after.

(** ** What is rendered *)

Fixpoint map_index {A B} (f : A -> nat -> B) (index : nat) (l : list A) : list B :=
  match l with
  | [] => []
  | x :: l' => f x index :: map_index f (S index) l'
  end.

(** One row of the "Game Moves" grid, line 230. *)
Definition move_row (move : string) (index : nat) : string :=
  (JS.string_of_nat (index + 1)%nat ++ ". "
     ++ (if (index mod 2 =? 0)%nat then "White" else "Black") ++ ": "
     ++ formatMove move)%string.

(** The "Game Moves" grid, lines 219-235: shown once the game is finished
    and the history is not empty. *)
Definition render_moves (w : World E) : option (list string) :=
  if gameFinished w && (0 <? length (movesHistory w))
  then Some (map_index move_row 0 (movesHistory w))
  else None.

(** The trivia line, lines 207-214. *)
Definition render_trivia (w : World E) : option string :=
  if isLoading w && negb (gameStarted w)
  then nth_error chessTrivia (currentTrivia w)
  else None.

(** [<Chessboard position={position} />] *)
Definition render_board (w : World E) : string := position w.

(** ** The event loop *)

Inductive event : Type :=
| Click_Start
| Click_Reset
| Fetch_settled (s : settled)
| Timeout_fired
| Interval_fired
| Change_whiteModel (value : string)
| Change_blackModel (value : string)
| Change_whiteKey (value : string)
| Change_blackKey (value : string)
| Change_maxTurns (value : string).

(** Runs one task to its end, reports an exception nobody caught, then lets
    the effect see the new state. *)
Definition run_task (t : Task unit) (w : World E) : World E :=
  match t w with
  | (Normal _, w') => useEffect w w'
  | (Throw err, w') => useEffect w (set_trace (trace w' ++ [Uncaught err]) w')
  end.

(** One event; [None] when it cannot happen in [w]: the Start button is
    disabled while loading, the Reset button exists only when the game is
    finished, and a promise, a timeout or the interval must be pending. *)
Definition step (ev : event) (w : World E) : option (World E) :=
  match ev with
  | Click_Start => if isLoading w then None else Some (run_task startGame w)
  | Click_Reset => if gameFinished w then Some (run_task resetGame w) else None
  | Fetch_settled s =>
      match inflight w with
      | _ :: rest => Some (run_task (startGame_resume s) (set_inflight rest w))
      | [] => None
      end
  | Timeout_fired =>
      match timers w with
      | c :: rest => Some (run_task (playMoves_timeout c) (set_timers rest w))
      | [] => None
      end
  | Interval_fired => if interval w then Some (run_task trivia_tick w) else None
  | Change_whiteModel v => Some (run_task (setWhiteModel v) w)
  | Change_blackModel v => Some (run_task (setBlackModel v) w)
  | Change_whiteKey v => Some (run_task (setWhiteKey v) w)
  | Change_blackKey v => Some (run_task (setBlackKey v) w)
  | Change_maxTurns v => Some (run_task (onChange_maxTurns v) w)
  end.

Fixpoint run (evs : list event) (w : World E) : option (World E) :=
  match evs with
  | [] => Some w
  | ev :: evs' =>
      match step ev w with
      | Some w' => run evs' w'
      | None => None
      end
  end.

(** The component after mounting: the initial values of the [useState]
    calls, nothing pending, the effect run once (no interval, as
    [isLoading] is false). *)
Definition mount : World E :=
  {| game := new_Chess;
     config := {| whiteModel := "OpenAI"; blackModel := "OpenAI";
                  whiteKey := ""; blackKey := ""; maxTurns := JS.Num 5 |};
     position := Chess_fen new_Chess;
     isLoading := false;
     thinking := "";
     gameFinished := false;
     currentTrivia := 0;
     gameStarted := false;
     movesHistory := [];
     interval := false;
     inflight := [];
     closures := [];
     timers := [];
     trace := [] |}.

Inductive reachable : World E -> Prop :=
| reachable_mount : reachable mount
| reachable_step ev w w' : reachable w -> step ev w = Some w' -> reachable w'.

(** ** Vocabulary of the properties *)

(** The engine state after [game.move] of each move code in turn, as the
    timer callback builds the call; [None] once a call raises. *)
Fixpoint apply_moves (ms : list string) (g : E) : option E :=
  match ms with
  | [] => Some g
  | move :: ms' =>
      match Chess_move g {| from := JS.slice move 0 2; to := JS.slice move 2 4;
                            promotion := "q" |} with
      | Some g' => apply_moves ms' g'
      | None => None
      end
  end.

Definition is_setPosition (e : effect) : bool :=
  match e with Called_setPosition _ => true | _ => false end.

(** The position updates among the calls made after the first [n]. *)
Definition position_updates (n : nat) (w : World E) : list effect :=
  filter is_setPosition (skipn n (trace w)).

Definition promotes_to_queen (e : effect) : Prop :=
  match e with
  | Called_move m _ => promotion m = "q"
  | _ => True
  end.

(** The closure of the replay in progress, halted or completed: the one
    allocated last, for as long as [gameStarted] is set. *)
Definition replay_closure (w : World E) : option Closure :=
  if gameStarted w then nth_error (closures w) (length (closures w) - 1) else None.

(** Before a replay: nothing is scheduled; either nothing is awaited or one
    fetch is, sent after the engine was reset. *)
Definition awaiting (w : World E) : Prop :=
  timers w = [] /\ gameFinished w = false /\
  ((isLoading w = false /\ inflight w = []) \/
   (isLoading w = true /\ (exists r, inflight w = [r]) /\
    exists g0, game w = Chess_reset g0)).

(** During and after a replay: the cursor [i] of the last closure is within
    the list, the engine holds the moves before the cursor, and at most the
    closure's own timer is pending. *)
Definition replaying (w : World E) : Prop :=
  inflight w = [] /\
  exists older env,
    closures w = older ++ [env] /\
    movesHistory w = moves env /\
    i env <= length (moves env) /\
    (exists g0,
       apply_moves (firstn (i env) (moves env)) (Chess_reset g0) = Some (game w)) /\
    (gameFinished w = true -> i env = length (moves env)) /\
    isLoading w = negb (gameFinished w) /\
    (timers w = [] \/
     (timers w = [length older] /\ i env < length (moves env) /\
      gameFinished w = false)).

Definition phase (w : World E) : Prop :=
  if gameStarted w then replaying w else awaiting w.

(** The positions [game.fen()] returns after each accepted move, in order. *)
Fixpoint positions_after (ms : list string) (g : E) : list string :=
  match ms with
  | [] => []
  | move :: ms' =>
      match Chess_move g {| from := JS.slice move 0 2; to := JS.slice move 2 4;
                            promotion := "q" |} with
      | Some g' => Chess_fen g' :: positions_after ms' g'
      | None => []
      end
  end.

(** A replay of [ms] standing at cursor [k]: its closure is the last one,
    its timer is pending as long as moves are left, and the completion flag
    is set exactly when none is. *)
Definition at_cursor (older : list Closure) (ms : list string) (k : nat)
    (w : World E) : Prop :=
  closures w = older ++ [{| moves := ms; i := k |}] /\
  gameFinished w = (length ms <=? k) /\
  timers w = (if k <? length ms then [length older] else []).

(** Whether [ev] in [w] is a timer callback of the replay [env] whose move
    the engine accepts. *)
Definition applies_move (ev : event) (w : World E) (env : Closure) : bool :=
  match ev with
  | Timeout_fired =>
      match nth_error (moves env) (i env) with
      | Some move =>
          match Chess_move (game w) {| from := JS.slice move 0 2;
                                       to := JS.slice move 2 4;
                                       promotion := "q" |} with
          | Some _ => true
          | None => false
          end
      | None => false
      end
  | _ => false
  end.

End Component.

(** ** A stand-in for chess.js, to run the component on concrete games

    It keeps the piece placement and the side to move.  [move] raises, as
    chess.js does, when the origin square holds no piece of the side to move,
    when the destination is not a square or holds a piece of the mover's own
    side; it does not check how pieces move, so it accepts every move
    chess.js accepts and more.  A pawn reaching the last rank becomes the
    piece named by [promotion].  [fen] gives the first two fields of the
    position encoding. *)

Module Board.

Record state : Type := {
  placement : list (string * ascii);    (* square, piece letter (upper case: White) *)
  white_to_move : bool
}.

Definition files : list ascii := ["a"; "b"; "c"; "d"; "e"; "f"; "g"; "h"]%char.
Definition ranks : list ascii := ["8"; "7"; "6"; "5"; "4"; "3"; "2"; "1"]%char.

Definition square (file rank : ascii) : string := String file (String rank "").

Definition rank_of (pieces : list ascii) (rank : ascii) : list (string * ascii) :=
  map (fun fp => (square (fst fp) rank, snd fp)) (combine files pieces).

Definition start : state :=
  {| placement :=
       rank_of ["r"; "n"; "b"; "q"; "k"; "b"; "n"; "r"]%char "8"
       ++ rank_of (repeat "p"%char 8) "7"
       ++ rank_of (repeat "P"%char 8) "2"
       ++ rank_of ["R"; "N"; "B"; "Q"; "K"; "B"; "N"; "R"]%char "1";
     white_to_move := true |}.

Fixpoint piece_at (sq : string) (l : list (string * ascii)) : option ascii :=
  match l with
  | [] => None
  | (s, p) :: l' => if String.eqb s sq then Some p else piece_at sq l'
  end.

Definition without (sq : string) (l : list (string * ascii)) : list (string * ascii) :=
  filter (fun sp => negb (String.eqb (fst sp) sq)) l.

Definition is_white (p : ascii) : bool := nat_of_ascii p <? 97.

Definition is_square (sq : string) : bool :=
  match sq with
  | String f (String r "") =>
      existsb (Ascii.eqb f) files && existsb (Ascii.eqb r) ranks
  | _ => false
  end.

Definition to_upper (p : ascii) : ascii :=
  if is_white p then p else ascii_of_nat (nat_of_ascii p - 32).

Definition promoted (p : ascii) (dest promotion : string) : ascii :=
  match promotion, dest with
  | String q "", String _ (String r "") =>
      if (Ascii.eqb p "P" && Ascii.eqb r "8")%char then to_upper q
      else if (Ascii.eqb p "p" && Ascii.eqb r "1")%char then q
      else p
  | _, _ => p
  end.

Definition move (g : state) (m : MoveObject) : option state :=
  match piece_at (from m) (placement g) with
  | None => None
  | Some p =>
      if Bool.eqb (is_white p) (white_to_move g) && is_square (to m)
         && match piece_at (to m) (placement g) with
            | Some q => negb (Bool.eqb (is_white q) (is_white p))
            | None => true
            end
      then Some {| placement :=
                     (to m, promoted p (to m) (promotion m))
                       :: without (to m) (without (from m) (placement g));
                   white_to_move := negb (white_to_move g) |}
      else None
  end.

Fixpoint rank_string (cells : list (option ascii)) (empty : nat) : string :=
  let gap := if empty =? 0 then "" else JS.string_of_nat empty in
  match cells with
  | [] => gap
  | None :: cells' => rank_string cells' (S empty)
  | Some p :: cells' => (gap ++ String p (rank_string cells' 0))%string
  end.

Definition fen (g : state) : string :=
  (String.concat "/"
     (map (fun r => rank_string
                      (map (fun f => piece_at (square f r) (placement g)) files) 0)
          ranks)
   ++ (if white_to_move g then " w" else " b"))%string.

#[global] Instance engine : Chess state :=
  {| new_Chess := start;
     Chess_reset := fun _ => start;
     Chess_move := move;
     Chess_fen := fen |}.

End Board.

Definition sample_game : list string := ["e2e4"; "e7e5"; "g1f3"].

Definition playback (ms : list string) : list event :=
  Click_Start :: Fetch_settled (Resolved ms) :: repeat Timeout_fired (length ms).

(** The component on the stand-in engine, after the given events from
    mounting (an event that cannot happen ends the run back at mounting). *)
Definition after (evs : list event) : World Board.state :=
  match run evs mount with
  | Some w => w
  | None => mount
  end.

(** ** Vocabulary of the further properties *)

(** The events of the five configuration inputs. *)
Definition is_change (ev : event) : bool :=
  match ev with
  | Change_whiteModel _ | Change_blackModel _ | Change_whiteKey _
  | Change_blackKey _ | Change_maxTurns _ => true
  | _ => false
  end.

(** The request body [startGame] builds from a configuration, lines 79-85. *)
Definition request_of (c : Config) : Request :=
  {| white_model := whiteModel c; black_model := blackModel c;
     white_api_key := whiteKey c; black_api_key := blackKey c;
     max_turns := maxTurns c |}.

(** The text [playMoves] sets before the move at cursor [n], lines 97-98. *)
Definition thinking_text (n : nat) : string :=
  ((if (n mod 2 =? 0)%nat then "White" else "Black") ++ " is thinking...")%string.

Section Vocabulary.

Context {E : Type}.

(** Everything but the configuration is the same in [w'] as in [w]. *)
Definition same_match (w w' : World E) : Prop :=
  game w' = game w /\ position w' = position w /\ isLoading w' = isLoading w /\
  thinking w' = thinking w /\ gameFinished w' = gameFinished w /\
  currentTrivia w' = currentTrivia w /\ gameStarted w' = gameStarted w /\
  movesHistory w' = movesHistory w /\ interval w' = interval w /\
  inflight w' = inflight w /\ closures w' = closures w /\
  timers w' = timers w /\ trace w' = trace w.

(** While a timer of the replay is pending, the thinking text names the side
    whose move the cursor stands at. *)
Definition announces (w : World E) : Prop :=
  timers w <> [] ->
  exists env, replay_closure w = Some env /\ thinking w = thinking_text (i env).

End Vocabulary.

(** * Properties *)

Unset Implicit Arguments.

(** Evaluation samples for the JavaScript helpers. *)
Example JS_samples :
  JS.parseInt "12" = JS.Num 12 /\ JS.parseInt "-3" = JS.Num (-3) /\
  JS.parseInt " 7.5" = JS.Num 7 /\ JS.parseInt "1e5" = JS.Num 1 /\
  JS.parseInt "0x1f" = JS.Num 31 /\ JS.parseInt "abc" = JS.NaN /\
  JS.parseInt "" = JS.NaN /\ JS.slice "e2e4" 0 2 = "e2" /\
  JS.slice "e2e4" 2 4 = "e4" /\ JS.slice "e2e" 2 4 = "e" /\
  JS.string_of_nat 12 = "12" /\ length chessTrivia = 10.
Proof. repeat split; reflexivity. Qed.

Lemma Some_eq {A} (a b : A) : Some a = Some b -> a = b.
Proof. congruence. Qed.

(** Unfolds the component down to constructors of [World], leaving the
    engine, the lists and the arithmetic folded. *)
Ltac world_eval :=
  cbv beta iota zeta delta
    [step run_task useEffect startGame startGame_resume resetGame playMoves
     playMoves_timeout trivia_tick onChange_maxTurns await element closure
     new_closure incr_i setTimeout fetch console_error game_reset game_fen
     game_move setPosition setIsLoading setThinking setGameFinished
     setGameStarted setMovesHistory setCurrentTrivia setWhiteModel
     setBlackModel setWhiteKey setBlackKey setMaxTurns record modify bind ret
     throw try_catch set_game set_config set_position set_isLoading
     set_thinking set_gameFinished set_currentTrivia set_gameStarted
     set_movesHistory set_interval set_inflight set_closures set_timers
     set_trace game config position isLoading thinking gameFinished
     currentTrivia gameStarted movesHistory interval inflight closures timers
     trace Bool.eqb andb negb] in *;
  cbn [i moves] in *.

(** Case analysis on the innermost scrutinee left in [Hs], until none is. *)
Ltac split_step Hs :=
  repeat match type of Hs with
  | context [match ?x with _ => _ end] =>
      lazymatch x with
      | context [match _ with _ => _ end] => fail
      | _ => destruct x eqn:?; world_eval
      end
  end.

Ltac break_hyps :=
  repeat match goal with
  | H : _ /\ _ |- _ => destruct H
  | H : exists _, _ |- _ => destruct H
  | H : _ \/ _ |- _ => destruct H
  end.

(** All the ways an event can go, each with the world it leads to. *)
Ltac step_cases Hs w ev :=
  destruct w as [g c p l t f ct gs mh iv inf cl tm tr];
  destruct ev; world_eval; split_step Hs; try discriminate;
  apply Some_eq in Hs; subst; world_eval.

Section Properties.

Context {E : Type} {engine : Chess E}.

(** ** Lists and closures *)

Lemma nth_error_last {A} (l : list A) (x : A) :
  nth_error (l ++ [x]) (length l) = Some x.
Proof. induction l as [|y l IH]; simpl; auto. Qed.

Lemma update_nth_last {A} (f : A -> A) (l : list A) (x : A) :
  update_nth (length l) f (l ++ [x]) = l ++ [f x].
Proof. induction l as [|y l IH]; simpl; [reflexivity | now rewrite IH]. Qed.

Lemma firstn_snoc {A} (l : list A) (n : nat) (x : A) :
  nth_error l n = Some x -> firstn (S n) l = firstn n l ++ [x].
Proof.
  revert n; induction l as [|y l IH]; intros [|n] Hn; simpl in *; try discriminate.
  - now inversion Hn.
  - now rewrite <- IH.
Qed.

Lemma length_snoc_pred {A} (l : list A) (x : A) : length (l ++ [x]) - 1 = length l.
Proof. rewrite length_app; simpl; lia. Qed.

Lemma apply_moves_snoc (ms : list string) (move : string) (g : E) :
  apply_moves (ms ++ [move]) g =
  match apply_moves ms g with
  | Some g' =>
      Chess_move g' {| from := JS.slice move 0 2; to := JS.slice move 2 4;
                       promotion := "q" |}
  | None => None
  end.
Proof.
  revert g; induction ms as [|m ms IH]; intros g; simpl.
  - now destruct (Chess_move g _).
  - destruct (Chess_move g _); auto.
Qed.

(** ** Invariants of the event loop, one event at a time *)

Lemma step_position ev (w w' : World E) :
  step ev w = Some w' ->
  position w = Chess_fen (game w) -> position w' = Chess_fen (game w').
Proof. intros Hs Hp. step_cases Hs w ev; auto. Qed.

Lemma chessTrivia_nonempty : length chessTrivia <> 0.
Proof. discriminate. Qed.

Lemma step_currentTrivia ev (w w' : World E) :
  step ev w = Some w' ->
  currentTrivia w < length chessTrivia -> currentTrivia w' < length chessTrivia.
Proof.
  intros Hs Hp. step_cases Hs w ev; auto.
  all: apply Nat.mod_upper_bound, chessTrivia_nonempty.
Qed.

Lemma step_interval ev (w w' : World E) :
  step ev w = Some w' ->
  interval w = (isLoading w && negb (gameStarted w))%bool ->
  interval w' = (isLoading w' && negb (gameStarted w'))%bool.
Proof.
  intros Hs Hp. step_cases Hs w ev; auto.
  all: repeat match goal with b : bool |- _ => destruct b end;
    simpl in *; congruence.
Qed.

Lemma step_promotion ev (w w' : World E) :
  step ev w = Some w' ->
  Forall promotes_to_queen (trace w) -> Forall promotes_to_queen (trace w').
Proof.
  intros Hs Hp. step_cases Hs w ev; auto.
  all: repeat (apply Forall_app; split); auto; repeat constructor.
Qed.

Lemma step_phase ev (w w' : World E) :
  step ev w = Some w' -> phase w -> phase w'.
Proof.
  intros Hs Hp. unfold phase, replaying, awaiting in *.
  destruct w as [g c p l t f ct gs mh iv inf cl tm tr].
  destruct ev.
  - (* Click_Start *)
    world_eval. destruct l; [discriminate|]. apply Some_eq in Hs; subst w'.
    destruct gs; world_eval; break_hyps; subst; try discriminate;
      simpl; repeat split; eauto; right; repeat split; eauto.
  - (* Click_Reset *)
    world_eval. destruct f; [|discriminate]. apply Some_eq in Hs; subst w'.
    destruct gs; world_eval; break_hyps; subst; try discriminate;
      simpl; repeat split; eauto.
  - (* Fetch_settled *)
    world_eval. destruct inf as [|r rest]; [discriminate|].
    destruct gs; world_eval; break_hyps; subst; try discriminate.
    match goal with H : _ :: _ = [_] |- _ => injection H as -> -> end.
    destruct s as [ms|]; world_eval.
    + rewrite nth_error_last in Hs; world_eval.
      destruct (0 <? length ms) eqn:Hlen; world_eval;
        apply Some_eq in Hs; subst w'; world_eval.
      * apply Nat.ltb_lt in Hlen.
        split; [reflexivity|]. exists cl, {| moves := ms; i := 0 |}; simpl.
        repeat split; eauto; try lia; discriminate.
      * apply Nat.ltb_ge in Hlen.
        split; [reflexivity|]. exists cl, {| moves := ms; i := 0 |}; simpl.
        repeat split; eauto; lia.
    + apply Some_eq in Hs; subst w'; world_eval. repeat split; eauto.
  - (* Timeout_fired *)
    world_eval. destruct tm as [|k rest]; [discriminate|].
    destruct gs; [|destruct Hp as (Ht & _); discriminate].
    destruct Hp as (Hin & older & env & Hcl & Hmh & Hle & (g0 & Hg) & Hfin & Hload & Htm).
    destruct Htm as [Htm | (Htm & Hlt & Hf)]; [discriminate|].
    injection Htm as -> ->. subst cl f inf mh l. world_eval.
    rewrite nth_error_last in Hs; world_eval.
    destruct (nth_error (moves env) (i env)) as [move|] eqn:Hmove; world_eval.
    2:{ apply nth_error_None in Hmove. lia. }
    destruct (Chess_move g _) as [g'|] eqn:Hacc; world_eval.
    + rewrite update_nth_last, nth_error_last in Hs; world_eval.
      assert (Hg' : apply_moves (firstn (i env + 1) (moves env)) (Chess_reset g0)
                    = Some g').
      { rewrite Nat.add_1_r, (firstn_snoc _ _ _ Hmove), apply_moves_snoc, Hg.
        exact Hacc. }
      destruct (i env + 1 <? length (moves env)) eqn:Hnext; world_eval;
        apply Some_eq in Hs; subst w'; world_eval.
      * apply Nat.ltb_lt in Hnext. split; [reflexivity|].
        exists older, {| moves := moves env; i := i env + 1 |}; simpl.
        repeat split; eauto; try lia; discriminate.
      * apply Nat.ltb_ge in Hnext. split; [reflexivity|].
        exists older, {| moves := moves env; i := i env + 1 |}; simpl.
        repeat split; eauto; lia.
    + apply Some_eq in Hs; subst w'; world_eval. split; [reflexivity|].
      exists older, env. repeat split; eauto; discriminate.
  - (* Interval_fired *)
    world_eval. destruct iv; [|discriminate].
    destruct l, gs; world_eval; apply Some_eq in Hs; subst w'; world_eval; exact Hp.
  - destruct l, gs; world_eval; apply Some_eq in Hs; subst w'; world_eval; exact Hp.
  - destruct l, gs; world_eval; apply Some_eq in Hs; subst w'; world_eval; exact Hp.
  - destruct l, gs; world_eval; apply Some_eq in Hs; subst w'; world_eval; exact Hp.
  - destruct l, gs; world_eval; apply Some_eq in Hs; subst w'; world_eval; exact Hp.
  - destruct l, gs; world_eval; apply Some_eq in Hs; subst w'; world_eval; exact Hp.
Qed.

(** ** What holds in every reachable world *)

Lemma reachable_run (evs : list event) (w w' : World E) :
  reachable w -> run evs w = Some w' -> reachable w'.
Proof.
  revert w; induction evs as [|ev evs IH]; simpl; intros w Hw Hr.
  - now injection Hr as <-.
  - destruct (step ev w) as [w1|] eqn:Hs; [|discriminate].
    eapply IH; [eapply reachable_step; eauto | exact Hr].
Qed.

Lemma reachable_position (w : World E) :
  reachable w -> position w = Chess_fen (game w).
Proof. induction 1; [reflexivity | eauto using step_position]. Qed.

Lemma reachable_currentTrivia (w : World E) :
  reachable w -> currentTrivia w < length chessTrivia.
Proof.
  induction 1; [simpl; lia | eauto using step_currentTrivia].
Qed.

Lemma reachable_interval (w : World E) :
  reachable w -> interval w = (isLoading w && negb (gameStarted w))%bool.
Proof. induction 1; [reflexivity | eauto using step_interval]. Qed.

Lemma reachable_promotion (w : World E) :
  reachable w -> Forall promotes_to_queen (trace w).
Proof. induction 1; [constructor | eauto using step_promotion]. Qed.

Lemma reachable_phase (w : World E) : reachable w -> phase w.
Proof.
  induction 1; [|eauto using step_phase].
  unfold phase, awaiting; simpl. auto.
Qed.


(** ** One timer callback *)

Lemma timeout_accepted (w : World E) older env move g' :
  timers w = [length older] ->
  closures w = older ++ [env] ->
  nth_error (moves env) (i env) = Some move ->
  Chess_move (game w) {| from := JS.slice move 0 2; to := JS.slice move 2 4;
                         promotion := "q" |} = Some g' ->
  exists w',
    step Timeout_fired w = Some w' /\
    closures w' = older ++ [{| moves := moves env; i := i env + 1 |}] /\
    game w' = g' /\ position w' = Chess_fen g' /\
    config w' = config w /\ movesHistory w' = movesHistory w /\
    gameStarted w' = gameStarted w /\ inflight w' = inflight w /\
    if i env + 1 <? length (moves env)
    then timers w' = [length older] /\ gameFinished w' = gameFinished w /\
         isLoading w' = isLoading w /\
         trace w' = trace w ++
           [Called_move {| from := JS.slice move 0 2; to := JS.slice move 2 4;
                           promotion := "q" |} true;
            Called_setPosition (Chess_fen g'); Called_setTimeout (length older)]
    else timers w' = [] /\ gameFinished w' = true /\
         isLoading w' = false /\ thinking w' = "" /\
         trace w' = trace w ++
           [Called_move {| from := JS.slice move 0 2; to := JS.slice move 2 4;
                           promotion := "q" |} true;
            Called_setPosition (Chess_fen g'); Called_setGameFinished true].
Proof.
  intros Htm Hcl Hmove Hacc.
  destruct w as [g c p l t f ct gs mh iv inf cl tm tr]; world_eval; subst tm cl.
  rewrite nth_error_last; world_eval. rewrite Hmove; world_eval.
  rewrite Hacc; world_eval. rewrite update_nth_last, nth_error_last; world_eval.
  destruct (i env + 1 <? length (moves env)); world_eval;
    destruct l, gs; world_eval; eexists; (split; [reflexivity|]); world_eval;
    repeat rewrite <- app_assoc; simpl; repeat split; reflexivity.
Qed.

Lemma timeout_raised (w : World E) older env move :
  timers w = [length older] ->
  closures w = older ++ [env] ->
  nth_error (moves env) (i env) = Some move ->
  Chess_move (game w) {| from := JS.slice move 0 2; to := JS.slice move 2 4;
                         promotion := "q" |} = None ->
  exists w',
    step Timeout_fired w = Some w' /\
    closures w' = closures w /\ game w' = game w /\ position w' = position w /\
    timers w' = [] /\ gameFinished w' = gameFinished w /\
    isLoading w' = isLoading w /\ thinking w' = thinking w /\
    gameStarted w' = gameStarted w /\
    trace w' = trace w ++
      [Called_move {| from := JS.slice move 0 2; to := JS.slice move 2 4;
                      promotion := "q" |} false;
       Uncaught "Invalid move"].
Proof.
  intros Htm Hcl Hmove Hacc.
  destruct w as [g c p l t f ct gs mh iv inf cl tm tr]; world_eval; subst tm cl.
  rewrite nth_error_last; world_eval. rewrite Hmove; world_eval.
  rewrite Hacc; world_eval.
  destruct l, gs; world_eval; eexists; (split; [reflexivity|]); world_eval;
    repeat rewrite <- app_assoc; simpl; repeat split; reflexivity.
Qed.


(** ** A run of timer callbacks *)

Lemma skipn_cons_nth {A} (l : list A) (n : nat) (x : A) :
  nth_error l n = Some x -> skipn n l = x :: skipn (S n) l.
Proof.
  revert n; induction l as [|y l IH]; intros [|n] Hn; simpl in *; try discriminate.
  - now inversion Hn.
  - now apply IH.
Qed.

Lemma nth_error_lt {A} (l : list A) (n : nat) :
  n < length l -> exists x, nth_error l n = Some x.
Proof.
  intros Hn. destruct (nth_error l n) as [x|] eqn:Hx; eauto.
  apply nth_error_None in Hx. lia.
Qed.

Lemma replay_steps (older : list Closure) (ms : list string) (j : nat) :
  forall (k : nat) (w : World E) (gj : E),
    at_cursor older ms k w ->
    k + j <= length ms ->
    apply_moves (firstn j (skipn k ms)) (game w) = Some gj ->
    exists wj extra,
      run (repeat Timeout_fired j) w = Some wj /\
      at_cursor older ms (k + j) wj /\
      game wj = gj /\
      trace wj = trace w ++ extra /\
      filter is_setPosition extra =
        map Called_setPosition (positions_after (firstn j (skipn k ms)) (game w)) /\
      (0 < j -> position wj = Chess_fen gj) /\
      (0 < j -> k + j = length ms -> isLoading wj = false /\ thinking wj = "") /\
      (k + j < length ms -> isLoading wj = isLoading w) /\
      movesHistory wj = movesHistory w /\ gameStarted wj = gameStarted w /\
      config wj = config w /\ inflight wj = inflight w.
Proof.
  induction j as [|j IH]; intros k w gj Hat Hk Hg.
  - exists w, []. simpl in *. injection Hg as <-.
    rewrite Nat.add_0_r, app_nil_r.
    split; [reflexivity|]. split; [exact Hat|]. repeat split; auto; lia.
  - destruct Hat as (Hcl & Hfin & Htm).
    destruct (nth_error_lt ms k) as [move Hmove]; [lia|].
    rewrite (skipn_cons_nth _ _ _ Hmove) in *.
    cbn [run repeat firstn apply_moves positions_after map] in Hg |- *.
    destruct (Chess_move (game w) _) as [g1|] eqn:Hacc; [|discriminate].
    assert (Hlt : (k <? length ms) = true) by (apply Nat.ltb_lt; lia).
    rewrite Hlt in Htm.
    destruct (timeout_accepted w older {| moves := ms; i := k |} move g1 Htm Hcl Hmove Hacc)
      as (w1 & Hstep & Hcl1 & Hg1 & Hp1 & Hc1 & Hm1 & Hs1 & Hi1 & Hbranch).
    simpl in Hcl1, Hbranch. rewrite Hstep.
    assert (Hat1 : at_cursor older ms (k + 1) w1).
    { unfold at_cursor. split; [exact Hcl1|].
      destruct (k + 1 <? length ms) eqn:Hnext.
      - destruct Hbranch as (-> & -> & _). rewrite Hfin.
        apply Nat.ltb_lt in Hnext. split; [|reflexivity].
        transitivity false; [|symmetry]; apply Nat.leb_gt; lia.
      - destruct Hbranch as (-> & -> & _).
        apply Nat.ltb_ge in Hnext. split; [|reflexivity].
        symmetry; apply Nat.leb_le; lia. }
    rewrite <- Hg1 in Hg.
    destruct (IH (k + 1) w1 gj Hat1) as
      (wj & extra & Hrun & Hatj & Hgj & Htr & Hfil & Hpos & Hend & Hmid & Hmh & Hgs & Hcf & Hin);
      [lia | now rewrite Nat.add_1_r | ].
    rewrite Nat.add_1_r, Hg1 in Hfil.
    replace (k + 1 + j) with (k + S j) in * by lia.
    assert (Htr1 : exists e3, trace w1 = trace w ++
               [Called_move {| from := JS.slice move 0 2; to := JS.slice move 2 4;
                               promotion := "q" |} true;
                Called_setPosition (Chess_fen g1); e3] /\ is_setPosition e3 = false).
    { destruct (k + 1 <? length ms); [destruct Hbranch as (_ & _ & _ & ->)
                                     | destruct Hbranch as (_ & _ & _ & _ & ->)];
        eexists; split; reflexivity. }
    destruct Htr1 as (e3 & Htr1 & He3).
    exists wj, ([Called_move {| from := JS.slice move 0 2; to := JS.slice move 2 4;
                                promotion := "q" |} true;
                 Called_setPosition (Chess_fen g1); e3] ++ extra).
    split; [exact Hrun|]. split; [exact Hatj|]. split; [exact Hgj|].
    split; [rewrite Htr, Htr1, <- app_assoc; reflexivity|].
    split; [simpl; rewrite He3; simpl; now rewrite Hfil|].
    destruct j as [|j].
    + simpl in Hrun, Hg. injection Hrun as <-. injection Hg as <-.
      split; [intros _; congruence|].
      split.
      { intros _ Hend'.
        assert (Hn : (k + 1 <? length ms) = false) by (apply Nat.ltb_ge; lia).
        rewrite Hn in Hbranch. tauto. }
      split.
      { intros Hmid'.
        assert (Hn : (k + 1 <? length ms) = true) by (apply Nat.ltb_lt; lia).
        rewrite Hn in Hbranch. tauto. }
      repeat split; congruence.
    + split; [intros _; apply Hpos; lia|].
      split; [intros _ Hend'; apply Hend; [lia | exact Hend']|].
      split.
      { intros Hmid'. rewrite (Hmid Hmid').
        assert (Hn : (k + 1 <? length ms) = true) by (apply Nat.ltb_lt; lia).
        rewrite Hn in Hbranch. tauto. }
      repeat split; congruence.
Qed.


(** ** The answer of the network call *)

Lemma resolved_enters_replay (w : World E) (r : Request) (ms : list string) :
  inflight w = [r] -> timers w = [] -> gameFinished w = false ->
  exists w0,
    step (Fetch_settled (Resolved ms)) w = Some w0 /\
    at_cursor (closures w) ms 0 w0 /\
    game w0 = game w /\ position w0 = position w /\ movesHistory w0 = ms /\
    gameStarted w0 = true /\ config w0 = config w /\ inflight w0 = [] /\
    if 0 <? length ms
    then isLoading w0 = isLoading w /\
         trace w0 = trace w ++ [Called_setTimeout (length (closures w))]
    else isLoading w0 = false /\ thinking w0 = "" /\
         trace w0 = trace w ++ [Called_setGameFinished true].
Proof.
  intros Hin Htm Hfin. unfold at_cursor.
  destruct w as [g c p l t f ct gs mh iv inf cl tm tr]; world_eval; subst inf tm f.
  rewrite nth_error_last; world_eval.
  destruct ms as [|m ms]; simpl; world_eval;
    destruct l, gs; world_eval; eexists; (split; [reflexivity|]); world_eval;
    repeat split; reflexivity.
Qed.

Lemma rejected_is_caught (w : World E) (r : Request) (rest : list Request) :
  inflight w = r :: rest ->
  exists w',
    step (Fetch_settled Rejected) w = Some w' /\
    isLoading w' = false /\ thinking w' = "Failed to load moves." /\
    gameFinished w' = gameFinished w /\ gameStarted w' = gameStarted w /\
    game w' = game w /\ position w' = position w /\
    closures w' = closures w /\ timers w' = timers w /\ inflight w' = rest /\
    trace w' = trace w ++ [Called_console_error].
Proof.
  intros Hin.
  destruct w as [g c p l t f ct gs mh iv inf cl tm tr]; world_eval; subst inf.
  destruct l, gs; world_eval; eexists; (split; [reflexivity|]); world_eval;
    repeat split; reflexivity.
Qed.

(** What a reachable world with a fetch in flight looks like. *)
Lemma reachable_fetching (w : World E) :
  reachable w -> inflight w <> [] ->
  gameStarted w = false /\ timers w = [] /\ gameFinished w = false /\
  isLoading w = true /\ (exists r, inflight w = [r]) /\
  exists g0, game w = Chess_reset g0.
Proof.
  intros Hr Hin. pose proof (reachable_phase w Hr) as Hp.
  unfold phase, replaying, awaiting in Hp.
  destruct (gameStarted w).
  - destruct Hp as (Hnil & _). contradiction.
  - destruct Hp as (Htm & Hfin & [(_ & Hnil) | (Hl & Hreq & Hg)]); [contradiction|].
    auto 7.
Qed.

Lemma skipn_length_app {A} (l extra : list A) : skipn (length l) (l ++ extra) = extra.
Proof. induction l as [|x l IH]; simpl; auto. Qed.

Lemma positions_after_firstn (ms : list string) (k : nat) (g : E) :
  positions_after (firstn k ms) g = firstn k (positions_after ms g).
Proof.
  revert k g; induction ms as [|m ms IH]; intros [|k] g; simpl; auto.
  destruct (Chess_move g _); simpl; [now rewrite IH | reflexivity].
Qed.

Lemma positions_after_length (ms : list string) (g g' : E) :
  apply_moves ms g = Some g' -> length (positions_after ms g) = length ms.
Proof.
  revert g; induction ms as [|m ms IH]; intros g Hg; simpl in *; auto.
  destruct (Chess_move g _); [simpl; eauto | discriminate].
Qed.

Lemma apply_moves_firstn (ms : list string) (k : nat) (g g' : E) :
  apply_moves ms g = Some g' -> exists gk, apply_moves (firstn k ms) g = Some gk.
Proof.
  revert k g; induction ms as [|m ms IH]; intros [|k] g Hg; simpl in *; eauto.
  destruct (Chess_move g _); [eauto | discriminate].
Qed.

(** ** The replay of an accepted move list *)

Lemma replay_prefix (w : World E) (ms : list string) (g : E) :
  reachable w -> inflight w <> [] -> apply_moves ms (game w) = Some g ->
  exists w0,
    step (Fetch_settled (Resolved ms)) w = Some w0 /\
    forall k, k <= length ms ->
      exists wk gk,
        run (repeat Timeout_fired k) w0 = Some wk /\
        apply_moves (firstn k ms) (game w) = Some gk /\
        game wk = gk /\ position wk = Chess_fen gk /\
        position_updates (length (trace w)) wk =
          map Called_setPosition (firstn k (positions_after ms (game w))) /\
        gameFinished wk = (k =? length ms) /\
        timers wk = (if k <? length ms then [length (closures w)] else []) /\
        (k = length ms -> thinking wk = "" /\ isLoading wk = false) /\
        (k < length ms -> isLoading wk = true) /\
        movesHistory wk = ms /\ gameStarted wk = true /\ config wk = config w.
Proof.
  intros Hr Hin Hg.
  destruct (reachable_fetching w Hr Hin) as (Hgs & Htm & Hfin & Hl & (r & Hreq) & _).
  destruct (resolved_enters_replay w r ms Hreq Htm Hfin)
    as (w0 & Hstep & Hat & Hg0 & Hp0 & Hm0 & Hs0 & Hc0 & Hi0 & Hbranch).
  exists w0. split; [exact Hstep|]. intros k Hk.
  destruct (apply_moves_firstn ms k _ _ Hg) as (gk & Hgk).
  destruct (replay_steps (closures w) ms k 0 w0 gk Hat) as
    (wk & extra & Hrun & (Hclk & Hfink & Htmk) & Hgamek & Htr & Hfil & Hpos & Hend
       & Hmid & Hmh & Hgsk & Hcf & _);
    [simpl; lia | simpl; now rewrite Hg0 | ].
  simpl in *. rewrite Hg0, positions_after_firstn in Hfil.
  assert (Hupd : position_updates (length (trace w)) wk =
                 map Called_setPosition (firstn k (positions_after ms (game w)))).
  { unfold position_updates. rewrite Htr.
    destruct (0 <? length ms);
      [destruct Hbranch as (_ & ->) | destruct Hbranch as (_ & _ & ->)];
      rewrite <- app_assoc, skipn_length_app; simpl; exact Hfil. }
  exists wk, gk. repeat split; try congruence.
  - destruct k as [|k]; [|apply Hpos; lia].
    simpl in Hrun, Hgk. injection Hrun as <-. injection Hgk as <-.
    rewrite Hp0. now apply reachable_position.
  - rewrite Hfink. destruct (Nat.eqb_spec k (length ms)) as [->|Hne].
    + apply Nat.leb_refl.
    + apply Nat.leb_gt. lia.
  - destruct k as [|k]; [|apply Hend; lia].
    simpl in Hrun. injection Hrun as <-.
    assert (Hz : (0 <? length ms) = false) by (apply Nat.ltb_ge; lia).
    rewrite Hz in Hbranch. tauto.
  - destruct k as [|k]; [|apply Hend; lia].
    simpl in Hrun. injection Hrun as <-.
    assert (Hz : (0 <? length ms) = false) by (apply Nat.ltb_ge; lia).
    rewrite Hz in Hbranch. tauto.
  - intros Hlt. rewrite (Hmid Hlt).
    assert (Hz : (0 <? length ms) = true) by (apply Nat.ltb_lt; lia).
    rewrite Hz in Hbranch. destruct Hbranch as (-> & _). exact Hl.
Qed.


Lemma start_sends_fetch (w : World E) :
  isLoading w = false ->
  exists w1,
    step Click_Start w = Some w1 /\ inflight w1 <> [] /\
    game w1 = Chess_reset (game w) /\ config w1 = config w.
Proof.
  intros Hl.
  destruct w as [g c p l t f ct gs mh iv inf cl tm tr]; world_eval; subst l.
  destruct gs; world_eval; eexists; (split; [reflexivity|]); world_eval;
    (split; [now destruct inf | split; reflexivity]).
Qed.

(** ** The claims *)

(** C1 (as amended).  For every move list of length N received from the
    network call and all of whose moves the rules engine accepts, the replay
    performs exactly N position updates, one per move and in list order:
    after k timer callbacks the updates made since the answer arrived are
    the positions after the first k moves.  The match-complete flag is set
    exactly when k = N, that is only after the Nth update, and then the
    thinking text is cleared and loading has ended. *)
Theorem replay_updates_then_finishes (w : World E) (ms : list string) (g : E) :
  reachable w -> inflight w <> [] -> apply_moves ms (game w) = Some g ->
  exists w0,
    step (Fetch_settled (Resolved ms)) w = Some w0 /\
    forall k, k <= length ms ->
      exists wk,
        run (repeat Timeout_fired k) w0 = Some wk /\
        position_updates (length (trace w)) wk =
          map Called_setPosition (firstn k (positions_after ms (game w))) /\
        length (position_updates (length (trace w)) wk) = k /\
        gameFinished wk = (k =? length ms) /\
        (k = length ms ->
         thinking wk = "" /\ isLoading wk = false /\ timers wk = [] /\
         game wk = g /\ position wk = Chess_fen g).
Proof.
  intros Hr Hin Hg.
  destruct (replay_prefix w ms g Hr Hin Hg) as (w0 & Hstep & Hall).
  exists w0. split; [exact Hstep|]. intros k Hk.
  destruct (Hall k Hk) as
    (wk & gk & Hrun & Hgk & Hgame & Hpos & Hupd & Hfin & Htm & Hend & _).
  exists wk. split; [exact Hrun|]. split; [exact Hupd|].
  split.
  { rewrite Hupd, length_map, length_firstn, (positions_after_length ms _ g Hg). lia. }
  split; [exact Hfin|]. intros ->.
  rewrite firstn_all in Hgk. rewrite Hg in Hgk. injection Hgk as <-.
  rewrite Nat.ltb_irrefl in Htm. destruct (Hend eq_refl). auto.
Qed.

(** C2.  When the network call rejects, the catch block ends loading, leaves
    the completion flag false and shows the fixed failure text; the only
    call made is [console.error], so the position is not updated, the engine
    is the one reset before the fetch, and no timer is left to run a replay
    step. *)
Theorem rejected_fetch_fails_without_replay (w : World E) :
  reachable w -> inflight w <> [] ->
  exists w',
    step (Fetch_settled Rejected) w = Some w' /\
    isLoading w' = false /\ gameFinished w' = false /\
    thinking w' = "Failed to load moves." /\
    game w' = game w /\ (exists g0, game w' = Chess_reset g0) /\
    render_board w' = render_board w /\
    trace w' = trace w ++ [Called_console_error] /\
    position_updates (length (trace w)) w' = [] /\
    timers w' = [] /\ step Timeout_fired w' = None.
Proof.
  intros Hr Hin.
  destruct (reachable_fetching w Hr Hin) as (Hgs & Htm & Hfin & Hl & (r & Hreq) & Hg0).
  destruct (rejected_is_caught w r [] Hreq)
    as (w' & Hstep & Hl' & Ht' & Hf' & Hs' & Hg' & Hp' & Hc' & Htm' & Hi' & Htr').
  exists w'. unfold render_board, position_updates.
  rewrite Htr', skipn_length_app. cbn [filter is_setPosition].
  repeat match goal with |- _ /\ _ => split end; try congruence.
  - destruct Hg0 as (g0 & Hg0). exists g0. congruence.
  - unfold step. now rewrite Htm', Htm.
Qed.

(** C5.  An empty move list finishes the match in the task that receives it:
    the completion flag is set, loading ends and the thinking text is
    cleared, no timer is set, and the only call made is
    [setGameFinished(true)]: no position update, and the engine is
    untouched. *)
Theorem empty_list_finishes_at_once (w : World E) :
  reachable w -> inflight w <> [] ->
  exists w',
    step (Fetch_settled (Resolved [])) w = Some w' /\
    gameFinished w' = true /\ isLoading w' = false /\ thinking w' = "" /\
    timers w' = [] /\ game w' = game w /\ render_board w' = render_board w /\
    trace w' = trace w ++ [Called_setGameFinished true] /\
    position_updates (length (trace w)) w' = [].
Proof.
  intros Hr Hin.
  destruct (reachable_fetching w Hr Hin) as (Hgs & Htm & Hfin & Hl & (r & Hreq) & _).
  destruct (resolved_enters_replay w r [] Hreq Htm Hfin)
    as (w' & Hstep & (_ & Hf' & Htm') & Hg' & Hp' & _ & _ & _ & _ & Hl' & Ht' & Htr').
  exists w'. unfold render_board, position_updates.
  rewrite Htr', skipn_length_app. cbn [filter is_setPosition].
  simpl in Hf', Htm'. repeat split; congruence.
Qed.

(** C8.  After the user starts a match, the network answers
    ["e2e4","e7e5","g1f3"] and the three timers have fired, the board shows
    the engine's position after exactly those three moves applied in order
    from the reset position, and the move log holds exactly the rows
    "1. White: e2-e4", "2. Black: e7-e5", "3. White: g1-f3". *)
Theorem sample_game_replay (w : World E) (g1 g2 g3 : E) :
  reachable w -> isLoading w = false ->
  Chess_move (Chess_reset (game w))
    {| from := "e2"; to := "e4"; promotion := "q" |} = Some g1 ->
  Chess_move g1 {| from := "e7"; to := "e5"; promotion := "q" |} = Some g2 ->
  Chess_move g2 {| from := "g1"; to := "f3"; promotion := "q" |} = Some g3 ->
  exists w',
    run (playback sample_game) w = Some w' /\
    game w' = g3 /\ render_board w' = Chess_fen g3 /\
    gameFinished w' = true /\
    render_moves w' = Some ["1. White: e2-e4"; "2. Black: e7-e5"; "3. White: g1-f3"].
Proof.
  intros Hr Hl H1 H2 H3.
  destruct (start_sends_fetch w Hl) as (w1 & Hstart & Hin & Hg1 & _).
  assert (Hr1 : reachable w1) by (eapply reachable_step; eauto).
  assert (Hg : apply_moves sample_game (game w1) = Some g3).
  { rewrite Hg1. unfold sample_game.
    cbn [apply_moves JS.slice substring Nat.sub]. rewrite H1, H2, H3. reflexivity. }
  destruct (replay_prefix w1 sample_game g3 Hr1 Hin Hg) as (w0 & Hstep & Hall).
  destruct (Hall (length sample_game) (Nat.le_refl _)) as
    (w' & gk & Hrun & Hgk & Hgame & Hpos & _ & Hfin & _ & _ & _ & Hmh & _).
  rewrite firstn_all, Hg in Hgk. injection Hgk as <-.
  rewrite Nat.eqb_refl in Hfin.
  exists w'. unfold playback. cbn [run]. rewrite Hstart, Hstep.
  split; [exact Hrun|]. split; [exact Hgame|]. split; [exact Hpos|].
  split; [exact Hfin|].
  unfold render_moves. rewrite Hfin, Hmh. reflexivity.
Qed.


(** ** The cursor *)

Lemma replay_closure_last (w : World E) older env :
  closures w = older ++ [env] -> gameStarted w = true ->
  replay_closure w = Some env.
Proof.
  intros Hcl Hgs. unfold replay_closure.
  now rewrite Hgs, Hcl, length_snoc_pred, nth_error_last.
Qed.

Lemma step_outside_replay ev (w w' : World E) :
  step ev w = Some w' ->
  match ev with
  | Click_Start | Click_Reset => gameStarted w' = false
  | Fetch_settled _ | Timeout_fired => True
  | _ => closures w' = closures w /\ gameStarted w' = gameStarted w
  end.
Proof. intros Hs. step_cases Hs w ev; auto. Qed.

Lemma step_keeps_currentTrivia ev (w w' : World E) :
  step ev w = Some w' -> ev <> Interval_fired ->
  currentTrivia w' = currentTrivia w.
Proof. intros Hs Hev. step_cases Hs w ev; auto; contradiction. Qed.

(** C3.  Throughout a replay (from the answer of the network call until the
    next start or reset) the cursor [i] of the replay's closure stays within
    [0, length]; the engine holds exactly the moves before the cursor,
    applied in order to the reset engine, and the board shows that engine's
    position.  No event changes the move list; an event moves the cursor
    only when it is a timer callback whose move is applied, and then by
    exactly one. *)
Theorem cursor_invariant (w : World E) (env : Closure) :
  reachable w -> replay_closure w = Some env ->
  0 <= i env <= length (moves env) /\
  (exists g0,
     apply_moves (firstn (i env) (moves env)) (Chess_reset g0) = Some (game w)) /\
  render_board w = Chess_fen (game w) /\
  forall ev w' env',
    step ev w = Some w' -> replay_closure w' = Some env' ->
    moves env' = moves env /\
    i env' = i env + (if applies_move ev w env then 1 else 0).
Proof.
  intros Hr Henv. pose proof (reachable_phase w Hr) as Hp.
  unfold phase, replay_closure in *.
  destruct (gameStarted w) eqn:Hgs; [|discriminate].
  destruct Hp as (Hin & older & env0 & Hcl & Hmh & Hle & Hg & Hfin & Hload & Htm).
  rewrite Hcl, length_snoc_pred, nth_error_last in Henv. injection Henv as <-.
  split; [lia|]. split; [exact Hg|].
  split; [now apply reachable_position|].
  intros ev w' env' Hs Henv'.
  pose proof (step_outside_replay ev w w' Hs) as Hout.
  destruct ev; simpl applies_move;
    try (destruct Hout as (Hcl' & Hgs');
         rewrite Hgs', Hgs, Hcl', Hcl, length_snoc_pred, nth_error_last in Henv';
         injection Henv' as <-; now auto).
  - rewrite Hout in Henv'. discriminate.
  - rewrite Hout in Henv'. discriminate.
  - unfold step in Hs. rewrite Hin in Hs. discriminate.
  - destruct Htm as [Htm | (Htm & Hlt & Hf)].
    { unfold step in Hs. rewrite Htm in Hs. discriminate. }
    destruct (nth_error_lt (moves env0) (i env0) Hlt) as (move & Hmove).
    rewrite Hmove.
    destruct (Chess_move (game w) _) as [g'|] eqn:Hacc.
    + destruct (timeout_accepted w older env0 move g' Htm Hcl Hmove Hacc)
        as (w1 & Hs1 & Hcl1 & _ & _ & _ & _ & Hgs1 & _).
      rewrite Hs in Hs1. injection Hs1 as <-.
      rewrite Hgs1, Hgs, Hcl1, length_snoc_pred, nth_error_last in Henv'.
      injection Henv' as <-. simpl. auto.
    + destruct (timeout_raised w older env0 move Htm Hcl Hmove Hacc)
        as (w1 & Hs1 & Hcl1 & _ & _ & _ & _ & _ & _ & Hgs1 & _).
      rewrite Hs in Hs1. injection Hs1 as <-.
      rewrite Hgs1, Hgs, Hcl1, Hcl, length_snoc_pred, nth_error_last in Henv'.
      injection Henv' as <-. auto.
Qed.

(** C4.  The Reset button, which exists once the game is finished, resets
    the engine and shows the reset engine's position, empties the recorded
    move list, clears the thinking text and the completion flag (so the
    move log is gone), and clears [gameStarted]. *)
Theorem resetGame_from_Finished (w : World E) :
  gameFinished w = true ->
  exists w',
    step Click_Reset w = Some w' /\
    game w' = Chess_reset (game w) /\
    render_board w' = Chess_fen (Chess_reset (game w)) /\
    movesHistory w' = [] /\ thinking w' = "" /\
    gameFinished w' = false /\ gameStarted w' = false /\
    render_moves w' = None.
Proof.
  intros Hf. unfold render_board, render_moves.
  destruct w as [g c p l t f ct gs mh iv inf cl tm tr]; world_eval; subst f.
  destruct l, gs; world_eval; eexists; (split; [reflexivity|]); world_eval;
    repeat split; reflexivity.
Qed.

(** C10.  [resetGame] leaves the match configuration as it was: both
    provider selections, both API keys and the max-turn count. *)
Theorem resetGame_keeps_config (w : World E) :
  let w' := run_task resetGame w in
  config w' = config w /\
  whiteModel (config w') = whiteModel (config w) /\
  blackModel (config w') = blackModel (config w) /\
  whiteKey (config w') = whiteKey (config w) /\
  blackKey (config w') = blackKey (config w) /\
  maxTurns (config w') = maxTurns (config w).
Proof.
  destruct w as [g c p l t f ct gs mh iv inf cl tm tr]; world_eval.
  destruct l, gs; world_eval; repeat split; reflexivity.
Qed.

(** ** The max-turns field *)

Lemma maxTurns_stored (w : World E) (value : string) :
  exists w',
    step (Change_maxTurns value) w = Some w' /\
    maxTurns (config w') = JS.Math_max (JS.Num 1) (JS.parseInt value).
Proof.
  destruct w as [g c p l t f ct gs mh iv inf cl tm tr]; world_eval.
  destruct l, gs; world_eval; eexists; (split; [reflexivity|]); reflexivity.
Qed.

(** An input that parses to a number is stored as a number that is at least 1. *)
Lemma maxTurns_of_number (value : string) (z : Z) :
  JS.parseInt value = JS.Num z ->
  JS.Math_max (JS.Num 1) (JS.parseInt value) = JS.Num (Z.max 1 z) /\
  JS.ge (JS.Math_max (JS.Num 1) (JS.parseInt value)) (JS.Num 1) = true.
Proof.
  intros ->. simpl. split; [reflexivity|]. apply Z.leb_le. lia.
Qed.

(** No input makes the stored value compare below 1. *)
Lemma maxTurns_never_below (value : string) :
  JS.lt (JS.Math_max (JS.Num 1) (JS.parseInt value)) (JS.Num 1) = false.
Proof.
  destruct (JS.parseInt value) as [|z]; simpl; [reflexivity|].
  apply Z.ltb_ge. lia.
Qed.

(** C6, the code at the input that breaks it.  Clearing the max-turns field
    hands the handler the empty string: [parseInt] gives NaN, [Math.max(1,
    NaN)] is NaN, and NaN is what is stored; it is not at least 1. *)
Theorem maxTurns_of_cleared_field (w : World E) :
  exists w',
    step (Change_maxTurns "") w = Some w' /\
    maxTurns (config w') = JS.NaN /\
    JS.ge (maxTurns (config w')) (JS.Num 1) = false.
Proof.
  destruct (maxTurns_stored w "") as (w' & Hs & Hm).
  exists w'. rewrite Hm. repeat split; auto.
Qed.

(** C7.  The display index of the trivia rotator is always below the length
    of the trivia list; a tick of the interval moves it to the next index
    modulo that length; the interval ticks exactly while loading with the
    replay not started; and once the replay has started, or while the match
    is not loading, no event changes the index. *)
Theorem trivia_rotator (w : World E) :
  reachable w ->
  0 <= currentTrivia w < length chessTrivia /\
  (forall w', step Interval_fired w = Some w' ->
     currentTrivia w' = (currentTrivia w + 1) mod length chessTrivia) /\
  (step Interval_fired w <> None <-> isLoading w = true /\ gameStarted w = false) /\
  (gameStarted w = true \/ isLoading w = false ->
   forall ev w', step ev w = Some w' -> currentTrivia w' = currentTrivia w).
Proof.
  intros Hr. pose proof (reachable_interval w Hr) as Hiv.
  split; [split; [lia | now apply reachable_currentTrivia]|].
  split.
  { intros w' Hs. clear Hiv.
    destruct w as [g c p l t f ct gs mh iv inf cl tm tr]; world_eval.
    destruct iv; [|discriminate]. apply Some_eq in Hs. subst w'.
    destruct l, gs; reflexivity. }
  split.
  { unfold step. rewrite Hiv.
    destruct (isLoading w), (gameStarted w); simpl; split;
      try (intros []; discriminate); try congruence; auto. }
  intros Hidle ev w' Hs.
  apply (step_keeps_currentTrivia ev w w' Hs). intros ->.
  unfold step in Hs. rewrite Hiv in Hs.
  destruct Hidle as [Hi | Hi]; rewrite Hi in Hs; simpl in Hs;
    try rewrite andb_false_r in Hs; discriminate.
Qed.

(** C9.  Every call of [game.move] the component has made, for whichever
    move of whichever received list and whether the engine accepted it or
    not, was made with [promotion: 'q']. *)
Theorem promotion_always_queen (w : World E) (m : MoveObject) (accepted : bool) :
  reachable w -> In (Called_move m accepted) (trace w) -> promotion m = "q".
Proof.
  intros Hr Hin. pose proof (reachable_promotion w Hr) as Hall.
  rewrite Forall_forall in Hall. exact (Hall _ Hin).
Qed.

End Properties.

(** * The component run on the stand-in engine *)

Lemma reachable_after (evs : list event) : reachable (after evs).
Proof.
  unfold after. destruct (run evs mount) as [w|] eqn:Hrun.
  - exact (reachable_run evs mount w reachable_mount Hrun).
  - exact reachable_mount.
Qed.

Example sample_game_on_the_board :
  render_board (after (playback sample_game))
  = "rnbqkbnr/pppp1ppp/8/4p3/4P3/5N2/PPPP1PPP/RNBQKB1R b".
Proof. reflexivity. Qed.

(** C1 at the sample game: the moves of ["e2e4","e7e5","g1f3"] are all
    accepted once the fetch has been sent from the mounted component. *)
Lemma replay_updates_then_finishes_witness :
  reachable (after [Click_Start]) /\ inflight (after [Click_Start]) <> [] /\
  exists g,
    apply_moves sample_game (game (after [Click_Start])) = Some g /\
    exists w0,
      step (Fetch_settled (Resolved sample_game)) (after [Click_Start]) = Some w0 /\
      forall k, k <= length sample_game ->
        exists wk,
          run (repeat Timeout_fired k) w0 = Some wk /\
          position_updates (length (trace (after [Click_Start]))) wk =
            map Called_setPosition
              (firstn k (positions_after sample_game (game (after [Click_Start])))) /\
          length (position_updates (length (trace (after [Click_Start]))) wk) = k /\
          gameFinished wk = (k =? length sample_game) /\
          (k = length sample_game ->
           thinking wk = "" /\ isLoading wk = false /\ timers wk = [] /\
           game wk = g /\ position wk = Chess_fen g).
Proof.
  split; [apply reachable_after|].
  split; [intro H; vm_compute in H; discriminate H|].
  eexists. split; [vm_compute; reflexivity|].
  apply (replay_updates_then_finishes (after [Click_Start]) sample_game).
  - apply reachable_after.
  - intro H; vm_compute in H; discriminate H.
  - vm_compute; reflexivity.
Defined.

(** C1 as stated fails when the engine raises.  The received list ["e4e5"]
    has length 1, but e4 is empty in the starting position: [game.move]
    raises inside the timer callback, which ends before [setPosition], [i++]
    and the next [playMoves()].  No position update is made, no timer is
    left, and the completion flag stays false with loading still on. *)
Lemma replay_halts_on_raising_move :
  let w := after [Click_Start] in
  reachable w /\ inflight w <> [] /\ length ["e4e5"] = 1 /\
  apply_moves ["e4e5"] (game w) = None /\
  exists w0 w1,
    step (Fetch_settled (Resolved ["e4e5"])) w = Some w0 /\
    run (repeat Timeout_fired 1) w0 = Some w1 /\
    position_updates (length (trace w)) w1 = [] /\
    gameFinished w1 = false /\ isLoading w1 = true /\
    thinking w1 = "White is thinking..." /\
    timers w1 = [] /\ step Timeout_fired w1 = None.
Proof.
  split; [apply reachable_after|].
  split; [intro H; vm_compute in H; discriminate H|].
  split; [reflexivity|]. split; [reflexivity|].
  do 2 eexists. split; [vm_compute; reflexivity|].
  split; [vm_compute; reflexivity|]. repeat split.
Qed.

(** C2 at the mounted component after Start. *)
Lemma rejected_fetch_fails_without_replay_witness :
  reachable (after [Click_Start]) /\ inflight (after [Click_Start]) <> [] /\
  exists w',
    step (Fetch_settled Rejected) (after [Click_Start]) = Some w' /\
    isLoading w' = false /\ gameFinished w' = false /\
    thinking w' = "Failed to load moves." /\
    game w' = game (after [Click_Start]) /\
    (exists g0, game w' = Chess_reset g0) /\
    render_board w' = render_board (after [Click_Start]) /\
    trace w' = trace (after [Click_Start]) ++ [Called_console_error] /\
    position_updates (length (trace (after [Click_Start]))) w' = [] /\
    timers w' = [] /\ step Timeout_fired w' = None.
Proof.
  split; [apply reachable_after|].
  split; [intro H; vm_compute in H; discriminate H|].
  apply (rejected_fetch_fails_without_replay (after [Click_Start])).
  - apply reachable_after.
  - intro H; vm_compute in H; discriminate H.
Defined.

(** C3 after the first move of the sample game. *)
Lemma cursor_invariant_witness :
  let w := after [Click_Start; Fetch_settled (Resolved sample_game); Timeout_fired] in
  let env := {| moves := sample_game; i := 1 |} in
  reachable w /\ replay_closure w = Some env /\
  0 <= i env <= length (moves env) /\
  (exists g0,
     apply_moves (firstn (i env) (moves env)) (Chess_reset g0) = Some (game w)) /\
  render_board w = Chess_fen (game w) /\
  forall ev w' env',
    step ev w = Some w' -> replay_closure w' = Some env' ->
    moves env' = moves env /\
    i env' = i env + (if applies_move ev w env then 1 else 0).
Proof.
  intros w env.
  split; [apply reachable_after|]. split; [reflexivity|].
  apply (cursor_invariant w env).
  - apply reachable_after.
  - reflexivity.
Defined.

(** C4 after the sample game has been played to its end. *)
Lemma resetGame_from_Finished_witness :
  gameFinished (after (playback sample_game)) = true /\
  exists w',
    step Click_Reset (after (playback sample_game)) = Some w' /\
    game w' = Chess_reset (game (after (playback sample_game))) /\
    render_board w' = Chess_fen (Chess_reset (game (after (playback sample_game)))) /\
    movesHistory w' = [] /\ thinking w' = "" /\
    gameFinished w' = false /\ gameStarted w' = false /\
    render_moves w' = None.
Proof.
  split; [reflexivity|].
  apply (resetGame_from_Finished (after (playback sample_game))). reflexivity.
Defined.

Example reset_shows_the_starting_position :
  option_map render_board (step Click_Reset (after (playback sample_game)))
  = Some "rnbqkbnr/pppppppp/8/8/8/8/PPPPPPPP/RNBQKBNR w".
Proof. reflexivity. Qed.

(** C5 at the mounted component after Start. *)
Lemma empty_list_finishes_at_once_witness :
  reachable (after [Click_Start]) /\ inflight (after [Click_Start]) <> [] /\
  exists w',
    step (Fetch_settled (Resolved [])) (after [Click_Start]) = Some w' /\
    gameFinished w' = true /\ isLoading w' = false /\ thinking w' = "" /\
    timers w' = [] /\ game w' = game (after [Click_Start]) /\
    render_board w' = render_board (after [Click_Start]) /\
    trace w' = trace (after [Click_Start]) ++ [Called_setGameFinished true] /\
    position_updates (length (trace (after [Click_Start]))) w' = [].
Proof.
  split; [apply reachable_after|].
  split; [intro H; vm_compute in H; discriminate H|].
  apply (empty_list_finishes_at_once (after [Click_Start])).
  - apply reachable_after.
  - intro H; vm_compute in H; discriminate H.
Defined.

(** C7 while the fetch is awaited and the interval has ticked twice. *)
Lemma trivia_rotator_witness :
  let w := after [Click_Start; Interval_fired; Interval_fired] in
  reachable w /\
  0 <= currentTrivia w < length chessTrivia /\
  (forall w', step Interval_fired w = Some w' ->
     currentTrivia w' = (currentTrivia w + 1) mod length chessTrivia) /\
  (step Interval_fired w <> None <-> isLoading w = true /\ gameStarted w = false) /\
  (gameStarted w = true \/ isLoading w = false ->
   forall ev w', step ev w = Some w' -> currentTrivia w' = currentTrivia w).
Proof.
  intros w. split; [apply reachable_after|].
  apply (trivia_rotator w). apply reachable_after.
Defined.

Example trivia_after_two_ticks :
  render_trivia (after [Click_Start; Interval_fired; Interval_fired])
  = Some "The first chess computer program was developed by Alan Turing in 1951".
Proof. reflexivity. Qed.

(** C8 from the mounted component. *)
Lemma sample_game_replay_witness :
  reachable (@mount Board.state _) /\ isLoading (@mount Board.state _) = false /\
  exists w',
    run (playback sample_game) mount = Some w' /\
    render_board w' = "rnbqkbnr/pppp1ppp/8/4p3/4P3/5N2/PPPP1PPP/RNBQKB1R b" /\
    gameFinished w' = true /\
    render_moves w' = Some ["1. White: e2-e4"; "2. Black: e7-e5"; "3. White: g1-f3"].
Proof.
  split; [apply reachable_mount|]. split; [reflexivity|].
  edestruct (@sample_game_replay Board.state _ mount)
    as (w' & Hrun & Hgame & Hboard & Hfin & Hrows);
    [apply reachable_mount | reflexivity | reflexivity | reflexivity | reflexivity | ].
  exists w'. split; [exact Hrun|]. split; [exact Hboard|].
  split; [exact Hfin | exact Hrows].
Defined.

(** C9 at the first move of the sample game. *)
Lemma promotion_always_queen_witness :
  let w := after (playback sample_game) in
  let m := {| from := "e2"; to := "e4"; promotion := "q" |} in
  reachable w /\ In (Called_move m true) (trace w) /\ promotion m = "q".
Proof.
  intros w m.
  assert (Hin : In (Called_move m true) (trace w)).
  { vm_compute. do 5 right. left. reflexivity. }
  split; [apply reachable_after|]. split; [exact Hin|].
  apply (promotion_always_queen w m true); [apply reachable_after | exact Hin].
Defined.

(** * Further properties of the component *)

(** ** Numerals typed into the max-turns field *)



(** One event whose kind is already known, with the world it leads to. *)
Ltac step_eval Hs w :=
  destruct w as [g c p l t f ct gs mh iv inf cl tm tr];
  world_eval; split_step Hs; try discriminate;
  apply Some_eq in Hs; subst; world_eval.





Section Further.

Context {E : Type} {engine : Chess E}.

(** ** The configuration inputs *)

Lemma step_change_frame ev (w w' : World E) :
  is_change ev = true -> step ev w = Some w' -> same_match w w'.
Proof.
  intros Hc Hs. unfold same_match.
  destruct ev; try discriminate Hc; step_eval Hs w; repeat split.
Qed.

Lemma step_change_enabled ev (w : World E) :
  is_change ev = true -> exists w', step ev w = Some w'.
Proof. intros Hc. destruct ev; try discriminate Hc; simpl; eauto. Qed.


(** X8.  Each configuration input can be changed in every state of the
    component; the four text inputs store the given string as it is, and
    every one of the five changes only its own field of the configuration
    and nothing of the match (engine, board, flags, pending work, calls). *)
Theorem config_inputs_change_one_field (w : World E) (value : string) :
  (exists w', step (Change_whiteModel value) w = Some w' /\ same_match w w' /\
     config w' = {| whiteModel := value; blackModel := blackModel (config w);
                    whiteKey := whiteKey (config w); blackKey := blackKey (config w);
                    maxTurns := maxTurns (config w) |}) /\
  (exists w', step (Change_blackModel value) w = Some w' /\ same_match w w' /\
     config w' = {| whiteModel := whiteModel (config w); blackModel := value;
                    whiteKey := whiteKey (config w); blackKey := blackKey (config w);
                    maxTurns := maxTurns (config w) |}) /\
  (exists w', step (Change_whiteKey value) w = Some w' /\ same_match w w' /\
     config w' = {| whiteModel := whiteModel (config w);
                    blackModel := blackModel (config w);
                    whiteKey := value; blackKey := blackKey (config w);
                    maxTurns := maxTurns (config w) |}) /\
  (exists w', step (Change_blackKey value) w = Some w' /\ same_match w w' /\
     config w' = {| whiteModel := whiteModel (config w);
                    blackModel := blackModel (config w);
                    whiteKey := whiteKey (config w); blackKey := value;
                    maxTurns := maxTurns (config w) |}) /\
  (exists w', step (Change_maxTurns value) w = Some w' /\ same_match w w' /\
     config w' = {| whiteModel := whiteModel (config w);
                    blackModel := blackModel (config w);
                    whiteKey := whiteKey (config w); blackKey := blackKey (config w);
                    maxTurns := JS.Math_max (JS.Num 1) (JS.parseInt value) |}).
Proof.
  repeat match goal with |- _ /\ _ => split end.
  all: match goal with |- exists w', step ?ev ?w0 = Some w' /\ _ =>
         destruct (step_change_enabled ev w0 eq_refl) as (w' & Hs);
         exists w'; split; [exact Hs|];
         split; [exact (step_change_frame ev w0 w' eq_refl Hs)|];
         clear -Hs; step_eval Hs w0; reflexivity
       end.
Qed.

(** ** One match at a time *)

(** X1.  At most one thing is ever pending, a fetch or one timer of a replay,
    and nothing is pending when the component is not loading; while
    something is pending neither Start nor Reset can be clicked, so a second
    match cannot begin and the engine cannot be reset under a running
    replay. *)
Theorem one_match_at_a_time (w : World E) :
  reachable w ->
  length (inflight w) + length (timers w) <= 1 /\
  (isLoading w = false -> inflight w = [] /\ timers w = []) /\
  (inflight w <> [] \/ timers w <> [] ->
   step Click_Start w = None /\ step Click_Reset w = None).
Proof.
  intros Hr. pose proof (reachable_phase w Hr) as Hp.
  unfold phase, replaying, awaiting, step in *.
  destruct (gameStarted w).
  - destruct Hp as (Hin & older & env & _ & _ & _ & _ & _ & Hload & Htm).
    rewrite Hin, Hload.
    destruct Htm as [-> | (-> & _ & ->)]; simpl.
    + split; [lia|]. split; [auto|]. intros [Hx | Hx]; congruence.
    + split; [lia|]. split; [discriminate|]. auto.
  - destruct Hp as (-> & -> & [(-> & ->) | (-> & (r & ->) & _)]); simpl.
    + split; [lia|]. split; [auto|]. intros [Hx | Hx]; congruence.
    + split; [lia|]. split; [discriminate|]. auto.
Qed.

(** ** The move log *)

Lemma map_index_length {A B} (f : A -> nat -> B) (k0 : nat) (l : list A) :
  length (map_index f k0 l) = length l.
Proof. revert k0; induction l as [|x l IH]; intros k0; simpl; auto. Qed.

Lemma nth_error_map_index {A B} (f : A -> nat -> B) (l : list A) :
  forall k0 k,
    nth_error (map_index f k0 l) k = option_map (fun x => f x (k0 + k)) (nth_error l k).
Proof.
  induction l as [|x l IH]; intros k0 [|k]; simpl; auto.
  - now rewrite Nat.add_0_r.
  - rewrite IH. now rewrite Nat.add_succ_r.
Qed.

Lemma even_mod_2 (k : nat) : (k mod 2 =? 0) = Nat.even k.
Proof.
  destruct (Nat.even k) eqn:Hk.
  - apply Nat.even_spec in Hk. destruct Hk as (m & ->).
    rewrite Nat.mul_comm, Nat.Div0.mod_mul. reflexivity.
  - assert (Ho : Nat.odd k = true) by (unfold Nat.odd; now rewrite Hk).
    apply Nat.odd_spec in Ho. destruct Ho as (m & ->).
    rewrite Nat.add_comm, Nat.mul_comm, Nat.Div0.mod_add. reflexivity.
Qed.

(** X2.  Whenever the move log is on screen, nothing is pending, the engine
    has accepted every logged move, in order, from its reset state, and the
    board shows the position after exactly those moves; the log has one row
    per move. *)
Theorem shown_log_matches_board (w : World E) (rows : list string) :
  reachable w -> render_moves w = Some rows ->
  isLoading w = false /\ inflight w = [] /\ timers w = [] /\
  movesHistory w <> [] /\ length rows = length (movesHistory w) /\
  (exists g0, apply_moves (movesHistory w) (Chess_reset g0) = Some (game w)) /\
  render_board w = Chess_fen (game w).
Proof.
  intros Hr Hrows. pose proof (reachable_phase w Hr) as Hp.
  pose proof (reachable_position w Hr) as Hpos.
  unfold render_moves in Hrows.
  destruct (gameFinished w) eqn:Hf; [|discriminate].
  destruct (0 <? length (movesHistory w)) eqn:Hlen; [|discriminate].
  simpl in Hrows. injection Hrows as <-. apply Nat.ltb_lt in Hlen.
  unfold phase, replaying, awaiting in Hp.
  destruct (gameStarted w).
  - destruct Hp as (Hin & older & env & _ & Hmh & _ & (g0 & Hg) & Hfin & Hload & Htm).
    rewrite (Hfin Hf), firstn_all, <- Hmh in Hg.
    rewrite Hf in Hload.
    destruct Htm as [Htm | (_ & _ & Hcontra)]; [|congruence].
    rewrite map_index_length.
    repeat match goal with |- _ /\ _ => split end; auto.
    + intros Hnil. rewrite Hnil in Hlen. simpl in Hlen. lia.
    + eauto.
  - destruct Hp as (_ & Hcontra & _). congruence.
Qed.

(** X3.  Once the game is finished, row [k] of the move log (counted from 0)
    reads the number [k+1], then White for an even [k] and Black for an odd
    one, then the first two characters of move [k], a hyphen and its third
    and fourth characters. *)
Theorem move_log_row (w : World E) (k : nat) (move : string) :
  gameFinished w = true -> nth_error (movesHistory w) k = Some move ->
  exists rows,
    render_moves w = Some rows /\
    nth_error rows k =
      Some (JS.string_of_nat (k + 1) ++ ". "
              ++ (if Nat.even k then "White" else "Black") ++ ": "
              ++ JS.slice move 0 2 ++ "-" ++ JS.slice move 2 4)%string.
Proof.
  intros Hf Hk. unfold render_moves. rewrite Hf.
  assert (Hlen : (0 <? length (movesHistory w)) = true).
  { apply Nat.ltb_lt. assert (k < length (movesHistory w)); [|lia].
    apply nth_error_Some. congruence. }
  rewrite Hlen. simpl. eexists. split; [reflexivity|].
  rewrite nth_error_map_index, Hk. simpl.
  unfold move_row, formatMove. now rewrite even_mod_2.
Qed.

(** X6.  [formatMove] shows the first four characters of a move code around
    a hyphen and drops whatever follows them (such as a promotion letter);
    on any string its result has one character more than the first four
    characters of the input, so a code that is too short gives a shorter
    text rather than an error. *)
Theorem formatMove_first_four :
  (forall move : string,
     String.length (formatMove move) = Nat.min (String.length move) 4 + 1) /\
  (forall (a b c d : ascii) (rest : string),
     formatMove (String a (String b (String c (String d rest))))
     = String a (String b (String "-" (String c (String d ""))))).
Proof.
  split.
  - intros move. destruct move as [|a [|b [|c [|d [|e rest]]]]]; reflexivity.
  - intros a b c d rest. destruct rest; reflexivity.
Qed.

(** ** Start *)

Lemma start_effect (w : World E) :
  isLoading w = false ->
  exists w1,
    step Click_Start w = Some w1 /\
    game w1 = Chess_reset (game w) /\
    position w1 = Chess_fen (Chess_reset (game w)) /\
    isLoading w1 = true /\ thinking w1 = "Agents are getting ready..." /\
    gameFinished w1 = false /\ gameStarted w1 = false /\ movesHistory w1 = [] /\
    interval w1 = true /\ currentTrivia w1 = currentTrivia w /\
    config w1 = config w /\
    inflight w1 = inflight w ++ [request_of (config w)] /\
    closures w1 = closures w /\ timers w1 = timers w /\
    trace w1 = trace w ++
      [Called_setGameFinished false; Called_reset;
       Called_setPosition (Chess_fen (Chess_reset (game w)));
       Called_fetch (request_of (config w))].
Proof.
  intros Hl. unfold request_of.
  destruct w as [g c p l t f ct gs mh iv inf cl tm tr]; world_eval; subst l.
  destruct gs; world_eval; eexists; (split; [reflexivity|]); world_eval;
    repeat rewrite <- app_assoc; simpl; repeat split; reflexivity.
Qed.

Lemma run_changes (evs : list event) :
  forall w : World E,
    forallb is_change evs = true ->
    exists w', run evs w = Some w' /\ same_match w w'.
Proof.
  induction evs as [|ev evs IH]; intros w Hall; simpl in *.
  - exists w. split; [reflexivity|]. unfold same_match. repeat split.
  - apply andb_prop in Hall. destruct Hall as (Hev & Hall).
    destruct (step_change_enabled ev w Hev) as (w1 & Hs). rewrite Hs.
    pose proof (step_change_frame ev w w1 Hev Hs) as H1.
    destruct (IH w1 Hall) as (w' & Hrun & H2).
    exists w'. split; [exact Hrun|].
    unfold same_match in *.
    repeat match goal with H : _ /\ _ |- _ => destruct H end.
    repeat split; congruence.
Qed.

(** X9.  The request sent by Start carries the five configuration values as
    they are at the click, whatever they are; it is the only request in
    flight, and editing the configuration while it is awaited does not
    change it. *)
Theorem request_carries_config_at_click (w : World E) (edits : list event) :
  reachable w -> isLoading w = false -> forallb is_change edits = true ->
  exists w1 w',
    step Click_Start w = Some w1 /\ run edits w1 = Some w' /\
    inflight w1 = [request_of (config w)] /\
    (exists calls, trace w1 = calls ++ [Called_fetch (request_of (config w))]) /\
    inflight w' = [request_of (config w)] /\ trace w' = trace w1.
Proof.
  intros Hr Hl Hedits.
  pose proof (reachable_phase w Hr) as Hp.
  assert (Hin : inflight w = []).
  { unfold phase, replaying, awaiting in Hp. destruct (gameStarted w).
    - tauto.
    - destruct Hp as (_ & _ & [(_ & H) | (H & _)]); congruence. }
  destruct (start_effect w Hl)
    as (w1 & Hs & _ & _ & _ & _ & _ & _ & _ & _ & _ & _ & Hin1 & _ & _ & Htr1).
  rewrite Hin in Hin1. simpl in Hin1.
  destruct (run_changes edits w1 Hedits) as (w' & Hrun & Hsame).
  unfold same_match in Hsame.
  repeat match goal with H : _ /\ _ |- _ => destruct H end.
  exists w1, w'. repeat match goal with |- _ /\ _ => split end; auto; try congruence.
  exists (trace w ++ [Called_setGameFinished false; Called_reset;
                      Called_setPosition (Chess_fen (Chess_reset (game w)))]).
  rewrite Htr1, <- app_assoc. reflexivity.
Qed.

(** X10.  Start can be clicked whenever the component is not loading, also
    on a finished game that was not reset: it resets the engine and the
    board, empties the move list so that the move log disappears, clears
    both flags, shows the getting-ready text, turns loading on and with it
    the trivia interval, keeps the configuration, and leaves Start and Reset
    unavailable. *)
Theorem start_discards_previous_match (w : World E) :
  isLoading w = false ->
  exists w1,
    step Click_Start w = Some w1 /\
    game w1 = Chess_reset (game w) /\
    render_board w1 = Chess_fen (Chess_reset (game w)) /\
    movesHistory w1 = [] /\ render_moves w1 = None /\
    gameFinished w1 = false /\ gameStarted w1 = false /\
    isLoading w1 = true /\ thinking w1 = "Agents are getting ready..." /\
    interval w1 = true /\ config w1 = config w /\
    step Click_Start w1 = None /\ step Click_Reset w1 = None.
Proof.
  intros Hl.
  destruct (start_effect w Hl)
    as (w1 & Hs & Hg & Hp & Hl1 & Ht & Hf & Hgs & Hmh & Hiv & _ & Hc & _).
  exists w1. unfold render_board, render_moves, step.
  rewrite Hl1, Hf. repeat split; auto.
Qed.

(** ** The trivia while waiting *)

Lemma interval_tick (w : World E) :
  interval w = true ->
  exists w',
    step Interval_fired w = Some w' /\
    currentTrivia w' = (currentTrivia w + 1) mod length chessTrivia /\
    isLoading w' = isLoading w /\ gameStarted w' = gameStarted w.
Proof.
  intros Hiv.
  destruct w as [g c p l t f ct gs mh iv inf cl tm tr]; world_eval; subst iv.
  destruct l, gs; world_eval; eexists; (split; [reflexivity|]); world_eval;
    repeat split; reflexivity.
Qed.

Lemma ticks_while_waiting (n : nat) :
  forall w : World E,
    reachable w -> isLoading w = true -> gameStarted w = false ->
    exists w',
      run (repeat Interval_fired n) w = Some w' /\
      currentTrivia w' = (currentTrivia w + n) mod length chessTrivia /\
      isLoading w' = true /\ gameStarted w' = false.
Proof.
  induction n as [|n IH]; intros w Hr Hl Hgs.
  - exists w. rewrite Nat.add_0_r, Nat.mod_small by now apply reachable_currentTrivia.
    repeat split; auto.
  - assert (Hiv : interval w = true).
    { rewrite (reachable_interval w Hr), Hl, Hgs. reflexivity. }
    destruct (interval_tick w Hiv) as (w1 & Hs & Hc1 & Hl1 & Hgs1).
    assert (Hr1 : reachable w1) by (eapply reachable_step; eauto).
    destruct (IH w1 Hr1) as (w' & Hrun & Hc & Hl' & Hgs'); [congruence..|].
    exists w'. cbn [repeat run]. rewrite Hs.
    split; [exact Hrun|]. split; [|auto].
    rewrite Hc, Hc1, Nat.Div0.add_mod_idemp_l. f_equal. lia.
Qed.

(** X11.  While the answer of the network call is awaited, [n] ticks of the
    interval move the trivia index [n] places forward around the list, and
    the line shown is the entry at that index, never a missing one; after as
    many ticks as the list is long the same entry is shown again. *)
Theorem trivia_cycles (w : World E) (n : nat) :
  reachable w -> isLoading w = true -> gameStarted w = false ->
  exists w',
    run (repeat Interval_fired n) w = Some w' /\
    currentTrivia w' = (currentTrivia w + n) mod length chessTrivia /\
    render_trivia w' = nth_error chessTrivia (currentTrivia w') /\
    render_trivia w' <> None /\
    (n = length chessTrivia -> currentTrivia w' = currentTrivia w).
Proof.
  intros Hr Hl Hgs.
  destruct (ticks_while_waiting n w Hr Hl Hgs) as (w' & Hrun & Hc & Hl' & Hgs').
  exists w'. split; [exact Hrun|]. split; [exact Hc|].
  assert (Hshown : render_trivia w' = nth_error chessTrivia (currentTrivia w')).
  { unfold render_trivia. now rewrite Hl', Hgs'. }
  split; [exact Hshown|]. split.
  - rewrite Hshown. apply nth_error_Some. rewrite Hc.
    apply Nat.mod_upper_bound, chessTrivia_nonempty.
  - intros ->. rewrite Hc.
    replace (currentTrivia w + length chessTrivia)
      with (currentTrivia w + 1 * length chessTrivia) by lia.
    rewrite Nat.Div0.mod_add.
    apply Nat.mod_small. now apply reachable_currentTrivia.
Qed.

(** ** A replay that met a move the engine does not accept *)

Lemma halted_step ev (w w' : World E) :
  reachable w -> isLoading w = true -> gameStarted w = true -> timers w = [] ->
  step ev w = Some w' -> is_change ev = true.
Proof.
  intros Hr Hl Hgs Htm Hs.
  pose proof (reachable_phase w Hr) as Hp.
  pose proof (reachable_interval w Hr) as Hiv.
  unfold phase in Hp. rewrite Hgs in Hp.
  destruct Hp as (Hin & _ & _ & _ & _ & _ & _ & _ & Hload & _).
  rewrite Hl in Hload. rewrite Hl, Hgs in Hiv. simpl in Hiv.
  assert (Hf : gameFinished w = false) by (destruct (gameFinished w); [discriminate | reflexivity]).
  destruct ev; try reflexivity; unfold step in Hs;
    rewrite ?Hl, ?Hf, ?Hin, ?Htm, ?Hiv in Hs; discriminate.
Qed.

(** X4.  A replay that stopped on a move the engine did not accept stays
    stopped: from then on (loading, replay started, no timer pending) the
    only events that can happen are edits of the configuration, and they
    change nothing of the match, so loading never ends, the game is never
    finished, and neither Start nor Reset becomes available again. *)
Theorem halted_replay_is_permanent (w : World E) (evs : list event) (w' : World E) :
  reachable w -> isLoading w = true -> gameStarted w = true -> timers w = [] ->
  run evs w = Some w' ->
  forallb is_change evs = true /\ same_match w w' /\
  step Click_Start w' = None /\ step Click_Reset w' = None /\
  step Timeout_fired w' = None.
Proof.
  intros Hr Hl Hgs Htm Hrun.
  assert (Hcore : forallb is_change evs = true /\ same_match w w').
  { revert w Hr Hl Hgs Htm Hrun.
    induction evs as [|ev evs IH]; intros w Hr Hl Hgs Htm Hrun; simpl in Hrun.
    - injection Hrun as <-. split; [reflexivity|]. unfold same_match. repeat split.
    - destruct (step ev w) as [w1|] eqn:Hs; [|discriminate].
      pose proof (halted_step ev w w1 Hr Hl Hgs Htm Hs) as Hev.
      pose proof (step_change_frame ev w w1 Hev Hs) as H1.
      assert (Hr1 : reachable w1) by (eapply reachable_step; eauto).
      unfold same_match in H1.
      destruct (IH w1 Hr1) as (Hall & H2); try tauto; try congruence.
      { destruct H1 as (_ & _ & -> & _). exact Hl. }
      { destruct H1 as (_ & _ & _ & _ & _ & _ & -> & _). exact Hgs. }
      { destruct H1 as (_ & _ & _ & _ & _ & _ & _ & _ & _ & _ & _ & -> & _). exact Htm. }
      split; [simpl; now rewrite Hev, Hall|].
      unfold same_match in *.
      repeat match goal with H : _ /\ _ |- _ => destruct H end.
      repeat split; congruence. }
  destruct Hcore as (Hall & Hsame). split; [exact Hall|]. split; [exact Hsame|].
  pose proof (reachable_run evs w w' Hr Hrun) as Hr'.
  pose proof (reachable_phase w' Hr') as Hp.
  unfold same_match in Hsame.
  destruct Hsame as (_ & _ & Hl' & _ & _ & _ & Hgs' & _ & _ & _ & _ & Htm' & _).
  unfold phase in Hp. rewrite Hgs', Hgs in Hp.
  destruct Hp as (_ & _ & _ & _ & _ & _ & _ & _ & Hload & _).
  rewrite Hl', Hl in Hload.
  assert (Hf : gameFinished w' = false)
    by (destruct (gameFinished w'); [discriminate | reflexivity]).
  unfold step. rewrite Hl', Hl, Hf, Htm', Htm. auto.
Qed.

Lemma run_app (evs1 evs2 : list event) (w : World E) :
  run (evs1 ++ evs2) w =
  match run evs1 w with
  | Some w1 => run evs2 w1
  | None => None
  end.
Proof.
  revert w; induction evs1 as [|ev evs1 IH]; intros w; simpl; auto.
  destruct (step ev w); auto.
Qed.

(** X12.  When the engine accepts the first [k] moves of the received list
    and raises on the next one, the replay ends at that callback: exactly
    [k] position updates have been made, engine and board stand at the
    position after the [k] accepted moves, no timer is pending, the
    completion flag is not set and loading stays on. *)
Theorem replay_stops_at_first_rejected_move
    (w : World E) (ms : list string) (k : nat) (gk : E) (move : string) :
  reachable w -> inflight w <> [] ->
  apply_moves (firstn k ms) (game w) = Some gk ->
  nth_error ms k = Some move ->
  Chess_move gk {| from := JS.slice move 0 2; to := JS.slice move 2 4;
                   promotion := "q" |} = None ->
  exists w',
    run (Fetch_settled (Resolved ms) :: repeat Timeout_fired (k + 1)) w = Some w' /\
    game w' = gk /\ render_board w' = Chess_fen gk /\
    position_updates (length (trace w)) w' =
      map Called_setPosition (positions_after (firstn k ms) (game w)) /\
    length (position_updates (length (trace w)) w') = k /\
    timers w' = [] /\ gameFinished w' = false /\ isLoading w' = true /\
    step Timeout_fired w' = None.
Proof.
  intros Hr Hin Hgk Hmove Hraise.
  assert (Hk : k < length ms) by (apply nth_error_Some; congruence).
  destruct (reachable_fetching w Hr Hin) as (Hgs & Htm & Hfin & Hl & (r & Hreq) & _).
  destruct (resolved_enters_replay w r ms Hreq Htm Hfin)
    as (w0 & Hstep & Hat & Hg0 & Hp0 & Hm0 & Hs0 & Hc0 & Hi0 & Hbranch).
  assert (Hz : (0 <? length ms) = true) by (apply Nat.ltb_lt; lia).
  rewrite Hz in Hbranch. destruct Hbranch as (Hl0 & Htr0).
  destruct (replay_steps (closures w) ms k 0 w0 gk Hat) as
    (wk & extra & Hrun & (Hclk & Hfink & Htmk) & Hgamek & Htr & Hfil & Hpos & _
       & Hmid & _ & Hgsk & _ & _);
    [simpl; lia | simpl; now rewrite Hg0 | ].
  simpl in Hclk, Hfink, Htmk, Hfil, Hmid.
  assert (Hlt : (k <? length ms) = true) by (apply Nat.ltb_lt; lia).
  rewrite Hlt in Htmk. rewrite Hg0 in Hfil.
  assert (Hraise' : Chess_move (game wk)
            {| from := JS.slice move 0 2; to := JS.slice move 2 4;
               promotion := "q" |} = None) by now rewrite Hgamek.
  destruct (timeout_raised wk (closures w) {| moves := ms; i := k |} move
              Htmk Hclk Hmove Hraise')
    as (w' & Hs' & _ & Hg' & Hp' & Htm' & Hf' & Hl' & _ & _ & Htr').
  exists w'. cbn [run]. rewrite Hstep, repeat_app, run_app, Hrun.
  assert (Hupd : position_updates (length (trace w)) w' =
                 map Called_setPosition (positions_after (firstn k ms) (game w))).
  { unfold position_updates.
    rewrite Htr', Htr, Htr0, <- !app_assoc, skipn_length_app.
    cbn [app filter is_setPosition]. rewrite filter_app, Hfil.
    cbn [filter is_setPosition]. now rewrite app_nil_r. }
  split; [cbn [repeat run]; now rewrite Hs'|].
  split; [congruence|].
  split.
  { unfold render_board. rewrite Hp'.
    destruct k as [|k]; [|apply Hpos; lia].
    simpl in Hrun, Hgk. injection Hrun as <-. injection Hgk as <-.
    rewrite Hp0. now apply reachable_position. }
  split; [exact Hupd|].
  split.
  { rewrite Hupd, length_map, (positions_after_length _ _ gk Hgk), length_firstn.
    lia. }
  split; [exact Htm'|].
  split.
  { rewrite Hf', Hfink. apply Nat.leb_gt. lia. }
  split.
  { rewrite Hl', (Hmid Hk), Hl0. exact Hl. }
  unfold step. now rewrite Htm'.
Qed.

(** ** The thinking text during a replay *)

Lemma step_announces ev (w w' : World E) :
  phase w -> announces w -> step ev w = Some w' -> announces w'.
Proof.
  intros Hp Ha Hs. unfold announces, replay_closure, phase, replaying, awaiting in *.
  destruct w as [g c p l t f ct gs mh iv inf cl tm tr].
  destruct ev.
  - (* Click_Start *)
    world_eval. destruct l; [discriminate|]. apply Some_eq in Hs; subst w'.
    destruct gs; world_eval; break_hyps; subst; try discriminate;
      intros Hne; contradiction Hne; reflexivity.
  - (* Click_Reset *)
    world_eval. destruct f; [|discriminate]. apply Some_eq in Hs; subst w'.
    destruct gs; world_eval; break_hyps; subst; try discriminate;
      intros Hne; contradiction Hne; reflexivity.
  - (* Fetch_settled *)
    world_eval. destruct inf as [|r rest]; [discriminate|].
    destruct gs; [destruct Hp as (Hin & _); discriminate|].
    destruct Hp as (Htm & _). world_eval. subst tm.
    destruct s as [ms|]; world_eval.
    + rewrite nth_error_last in Hs; world_eval.
      destruct (0 <? length ms) eqn:Hlen; destruct l; world_eval;
        apply Some_eq in Hs; subst w'; world_eval; intros Hne.
      all: try (contradiction Hne; reflexivity).
      all: exists {| moves := ms; i := 0 |};
        rewrite length_snoc_pred, nth_error_last; split; reflexivity.
    + destruct l; world_eval; apply Some_eq in Hs; subst w'; world_eval;
        intros Hne; contradiction Hne; reflexivity.
  - (* Timeout_fired *)
    world_eval. destruct tm as [|k rest]; [discriminate|].
    destruct gs; [|destruct Hp as (Ht & _); discriminate].
    destruct Hp as (Hin & older & env & Hcl & Hmh & Hle & (g0 & Hg) & Hfin & Hload & Htm).
    destruct Htm as [Htm | (Htm & Hlt & Hf)]; [discriminate|].
    injection Htm as -> ->. subst cl. world_eval.
    rewrite nth_error_last in Hs; world_eval.
    destruct (nth_error (moves env) (i env)) as [move|] eqn:Hmove; world_eval.
    2:{ apply nth_error_None in Hmove. lia. }
    destruct (Chess_move g _) as [g'|] eqn:Hacc; world_eval.
    + rewrite update_nth_last, nth_error_last in Hs; world_eval.
      destruct (i env + 1 <? length (moves env)) eqn:Hnext; destruct l; world_eval;
        apply Some_eq in Hs; subst w'; world_eval; intros Hne.
      all: try (contradiction Hne; reflexivity).
      all: exists {| moves := moves env; i := i env + 1 |};
        rewrite length_snoc_pred, nth_error_last; split; reflexivity.
    + destruct l; world_eval; apply Some_eq in Hs; subst w'; world_eval;
        intros Hne; contradiction Hne; reflexivity.
  - (* Interval_fired *)
    world_eval. destruct iv; [|discriminate].
    destruct l, gs; world_eval; apply Some_eq in Hs; subst w'; world_eval; exact Ha.
  - destruct l, gs; world_eval; apply Some_eq in Hs; subst w'; world_eval; exact Ha.
  - destruct l, gs; world_eval; apply Some_eq in Hs; subst w'; world_eval; exact Ha.
  - destruct l, gs; world_eval; apply Some_eq in Hs; subst w'; world_eval; exact Ha.
  - destruct l, gs; world_eval; apply Some_eq in Hs; subst w'; world_eval; exact Ha.
  - destruct l, gs; world_eval; apply Some_eq in Hs; subst w'; world_eval; exact Ha.
Qed.

Lemma reachable_announces (w : World E) : reachable w -> announces w.
Proof.
  induction 1 as [|ev w w' Hr IH Hs].
  - intros Hne. contradiction Hne. reflexivity.
  - exact (step_announces ev w w' (reachable_phase w Hr) IH Hs).
Qed.

(** X5.  Whenever a timer of the replay is pending, loading is on and the
    thinking text names the side whose move the cursor stands at: White
    before the moves at even positions of the list, Black before those at
    odd positions. *)
Theorem thinking_names_the_side_to_move (w : World E) :
  reachable w -> timers w <> [] ->
  exists env,
    replay_closure w = Some env /\ i env < length (moves env) /\
    isLoading w = true /\
    thinking w =
      ((if Nat.even (i env) then "White" else "Black") ++ " is thinking...")%string.
Proof.
  intros Hr Hne.
  destruct (reachable_announces w Hr Hne) as (env & Henv & Hth).
  pose proof (reachable_phase w Hr) as Hp.
  unfold phase, replay_closure in *.
  destruct (gameStarted w); [|discriminate].
  destruct Hp as (_ & older & env0 & Hcl & _ & _ & _ & _ & Hload & Htm).
  rewrite Hcl, length_snoc_pred, nth_error_last in Henv. injection Henv as ->.
  destruct Htm as [Htm | (_ & Hlt & Hf)]; [contradiction|].
  exists env. rewrite Hcl, length_snoc_pred, nth_error_last.
  rewrite Hload, Hf, Hth. unfold thinking_text. rewrite even_mod_2. auto.
Qed.

End Further.

(** * The further properties on the stand-in engine *)

(** X1 while the fetch of the first match is awaited. *)
Lemma one_match_at_a_time_witness :
  let w := after [Click_Start] in
  reachable w /\
  length (inflight w) + length (timers w) <= 1 /\
  (isLoading w = false -> inflight w = [] /\ timers w = []) /\
  (inflight w <> [] \/ timers w <> [] ->
   step Click_Start w = None /\ step Click_Reset w = None).
Proof.
  intros w. split; [apply reachable_after|].
  apply (one_match_at_a_time w). apply reachable_after.
Defined.

(** X2 on the finished sample game. *)
Lemma shown_log_matches_board_witness :
  let w := after (playback sample_game) in
  let rows := ["1. White: e2-e4"; "2. Black: e7-e5"; "3. White: g1-f3"] in
  reachable w /\ render_moves w = Some rows /\
  isLoading w = false /\ inflight w = [] /\ timers w = [] /\
  movesHistory w <> [] /\ length rows = length (movesHistory w) /\
  (exists g0, apply_moves (movesHistory w) (Chess_reset g0) = Some (game w)) /\
  render_board w = Chess_fen (game w).
Proof.
  intros w rows. split; [apply reachable_after|]. split; [reflexivity|].
  apply (shown_log_matches_board w rows); [apply reachable_after | reflexivity].
Defined.

(** X3 at the second row of the finished sample game. *)
Lemma move_log_row_witness :
  let w := after (playback sample_game) in
  gameFinished w = true /\ nth_error (movesHistory w) 1 = Some "e7e5" /\
  exists rows,
    render_moves w = Some rows /\
    nth_error rows 1 =
      Some (JS.string_of_nat (1 + 1) ++ ". "
              ++ (if Nat.even 1 then "White" else "Black") ++ ": "
              ++ JS.slice "e7e5" 0 2 ++ "-" ++ JS.slice "e7e5" 2 4)%string.
Proof.
  intros w. split; [reflexivity|]. split; [reflexivity|].
  apply (move_log_row w 1 "e7e5"); reflexivity.
Defined.

(** X4 after the replay of ["e4e5"] met its move, and one edit since. *)
Lemma halted_replay_is_permanent_witness :
  let w := after [Click_Start; Fetch_settled (Resolved ["e4e5"]); Timeout_fired] in
  let evs := [Change_maxTurns "7"] in
  let w' := after [Click_Start; Fetch_settled (Resolved ["e4e5"]); Timeout_fired;
                   Change_maxTurns "7"] in
  reachable w /\ isLoading w = true /\ gameStarted w = true /\ timers w = [] /\
  run evs w = Some w' /\
  forallb is_change evs = true /\ same_match w w' /\
  step Click_Start w' = None /\ step Click_Reset w' = None /\
  step Timeout_fired w' = None.
Proof.
  intros w evs w'. split; [apply reachable_after|].
  split; [reflexivity|]. split; [reflexivity|]. split; [reflexivity|].
  split; [vm_compute; reflexivity|].
  apply (halted_replay_is_permanent w evs w');
    [apply reachable_after | reflexivity | reflexivity | reflexivity
     | vm_compute; reflexivity].
Defined.

(** X5 before the second move of the sample game. *)
Lemma thinking_names_the_side_to_move_witness :
  let w := after [Click_Start; Fetch_settled (Resolved sample_game); Timeout_fired] in
  reachable w /\ timers w <> [] /\
  exists env,
    replay_closure w = Some env /\ i env < length (moves env) /\
    isLoading w = true /\
    thinking w =
      ((if Nat.even (i env) then "White" else "Black") ++ " is thinking...")%string.
Proof.
  intros w. split; [apply reachable_after|].
  split; [intro H; vm_compute in H; discriminate H|].
  apply (thinking_names_the_side_to_move w).
  - apply reachable_after.
  - intro H; vm_compute in H; discriminate H.
Defined.

Example thinking_before_the_second_move :
  thinking (after [Click_Start; Fetch_settled (Resolved sample_game); Timeout_fired])
  = "Black is thinking...".
Proof. reflexivity. Qed.

(** X9 from the mounted component, with a key typed after the click. *)
Lemma request_carries_config_at_click_witness :
  let w := @mount Board.state _ in
  let edits := [Change_whiteKey "k"] in
  reachable w /\ isLoading w = false /\ forallb is_change edits = true /\
  exists w1 w',
    step Click_Start w = Some w1 /\ run edits w1 = Some w' /\
    inflight w1 = [request_of (config w)] /\
    (exists calls, trace w1 = calls ++ [Called_fetch (request_of (config w))]) /\
    inflight w' = [request_of (config w)] /\ trace w' = trace w1.
Proof.
  intros w edits. split; [apply reachable_mount|].
  split; [reflexivity|]. split; [reflexivity|].
  apply (request_carries_config_at_click w edits);
    [apply reachable_mount | reflexivity | reflexivity].
Defined.

(** X10 on the finished sample game, started again without a reset. *)
Lemma start_discards_previous_match_witness :
  let w := after (playback sample_game) in
  isLoading w = false /\
  exists w1,
    step Click_Start w = Some w1 /\
    game w1 = Chess_reset (game w) /\
    render_board w1 = Chess_fen (Chess_reset (game w)) /\
    movesHistory w1 = [] /\ render_moves w1 = None /\
    gameFinished w1 = false /\ gameStarted w1 = false /\
    isLoading w1 = true /\ thinking w1 = "Agents are getting ready..." /\
    interval w1 = true /\ config w1 = config w /\
    step Click_Start w1 = None /\ step Click_Reset w1 = None.
Proof.
  intros w. split; [reflexivity|].
  apply (start_discards_previous_match w). reflexivity.
Defined.

(** X11 with twelve ticks while the first fetch is awaited. *)
Lemma trivia_cycles_witness :
  let w := after [Click_Start] in
  reachable w /\ isLoading w = true /\ gameStarted w = false /\
  exists w',
    run (repeat Interval_fired 12) w = Some w' /\
    currentTrivia w' = (currentTrivia w + 12) mod length chessTrivia /\
    render_trivia w' = nth_error chessTrivia (currentTrivia w') /\
    render_trivia w' <> None /\
    (12 = length chessTrivia -> currentTrivia w' = currentTrivia w).
Proof.
  intros w. split; [apply reachable_after|].
  split; [reflexivity|]. split; [reflexivity|].
  apply (trivia_cycles w 12); [apply reachable_after | reflexivity | reflexivity].
Defined.

(** X12 on the list ["e2e4","e2e4"]: the second move starts from the square
    the first one left empty. *)
Lemma replay_stops_at_first_rejected_move_witness :
  let w := after [Click_Start] in
  let ms := ["e2e4"; "e2e4"] in
  reachable w /\ inflight w <> [] /\
  exists gk,
    apply_moves (firstn 1 ms) (game w) = Some gk /\
    nth_error ms 1 = Some "e2e4" /\
    Chess_move gk {| from := JS.slice "e2e4" 0 2; to := JS.slice "e2e4" 2 4;
                     promotion := "q" |} = None /\
    exists w',
      run (Fetch_settled (Resolved ms) :: repeat Timeout_fired (1 + 1)) w = Some w' /\
      game w' = gk /\ render_board w' = Chess_fen gk /\
      position_updates (length (trace w)) w' =
        map Called_setPosition (positions_after (firstn 1 ms) (game w)) /\
      length (position_updates (length (trace w)) w') = 1 /\
      timers w' = [] /\ gameFinished w' = false /\ isLoading w' = true /\
      step Timeout_fired w' = None.
Proof.
  intros w ms. split; [apply reachable_after|].
  split; [intro H; vm_compute in H; discriminate H|].
  eexists. split; [vm_compute; reflexivity|].
  split; [reflexivity|]. split; [vm_compute; reflexivity|].
  apply (replay_stops_at_first_rejected_move w ms 1 _ "e2e4").
  - apply reachable_after.
  - intro H; vm_compute in H; discriminate H.
  - vm_compute; reflexivity.
  - reflexivity.
  - vm_compute; reflexivity.
Defined.
